(** * lucid_fastapi_app: token gate, post store and TTL cache of [main.py]

    A shallow embedding of the request handlers of [src/main.py]
    ([signup], [login], [add_post], [get_posts], [delete_post]) over an
    explicit state made of the relational store (tables [users] and
    [posts]) and the process-wide [cache].

    Conventions of the embedding.
    - A table is the list of its rows in insertion order; [.first()] is
      [find], [.all()] is [filter].
    - Primary keys are drawn from a per-table counter that an insert
      advances; a request that raises leaves the store as it was (the
      session of [get_db] is closed without a commit).
    - Randomness ([secrets.token_hex(16)], the bcrypt salt) and the clock
      readings of a request are inputs of the handlers.
    - Handlers receive inputs that already went through the pydantic
      schemas ([UserCreate], [UserLogin], [PostCreate]).
    - Clock readings are integers (seconds).  Every access to the cache
      reads the monotonic clock on its own, so [get_posts] receives two
      readings: one for the membership test, one for the access that
      follows it. *)

From Stdlib Require Import ZArith List String Ascii Bool Lia.
Import ListNotations.

Local Open Scope string_scope.
Local Open Scope list_scope.
Local Open Scope Z_scope.

(** ** Rows of the two tables *)

Module User.
(** [class User(Base)]; [token] is declared [nullable=True]. *)
Record t := mk {
  id : Z;
  email : string;
  password : string;
  token : option string
}.
End User.

Module Post.
(** [class Post(Base)]. *)
Record t := mk {
  id : Z;
  text : string;
  user_id : Z;
  created_at : Z
}.
End Post.

(** ** Request schemas *)

Module UserCreate.
Record t := mk { email : string; password : string }.
End UserCreate.

Module UserLogin.
Record t := mk { email : string; password : string }.
End UserLogin.

Module PostCreate.
Record t := mk { text : string }.
End PostCreate.

(** ** Errors that leave a handler *)

Inductive Error :=
| HTTPException (status_code : Z) (detail : string)
| IntegrityError
| KeyError (key : string).

Inductive Result (A : Type) :=
| Ok (a : A)
| Err (e : Error).
Arguments Ok {A} a.
Arguments Err {A} e.

(** The error taxonomy of the specification, as the handlers raise it. *)
Definition ConflictError : Error :=
  HTTPException 400 "Email already registered".
Definition AuthenticationError : Error :=
  HTTPException 400 "Invalid credentials".
Definition AuthorizationError : Error :=
  HTTPException 401 "Invalid or missing token".
Definition NotFoundError : Error :=
  HTTPException 404 "Post not found".

(** ** The cache *)

Module TTLCache.

(** Modelled from the spec: [cachetools.TTLCache] is a third-party class
    whose code is not among the sources of the repository; only its
    construction [TTLCache(maxsize=100, ttl=300)] and the three uses in
    [get_posts] ([token in cache], [cache[token]], [cache[token] = posts])
    are.
    The model follows section 4.2 of the specification: an entry holds
    a key, a value and its absolute expiry [expires = now + ttl]; an
    entry is served only while [now < expires]; an insertion of a new
    key into a full cache evicts before it inserts.  The specification
    leaves the eviction order open; the one chosen here is the one of
    the library: entries past their expiry are purged first, then the
    least recently used entry goes.  The list is kept in recency order,
    least recently used first. *)
Record Link := mkLink {
  key : string;
  value : list Post.t;
  expires : Z
}.

Definition t := list Link.

(** [cache = TTLCache(maxsize=100, ttl=300)] *)
Definition maxsize : nat := 100.
Definition ttl : Z := 300.

Definition empty : t := [].

Definition has_key (k : string) (l : Link) : bool := String.eqb (key l) k.

Definition live (now : Z) (l : Link) : bool := now <? expires l.

Definition currsize (c : t) : nat := List.length c.

(** Modelled from the spec: [TTLCache.__contains__], the test of
    [key in cache].  Section 4.2: an entry counts only if it is present
    and [now < expiresAt]; the order is untouched. *)
Definition contains (now : Z) (c : t) (k : string) : bool :=
  match find (has_key k) c with
  | Some l => live now l
  | None => false
  end.

(** Modelled from the spec: the entries of [c] without the one under [k]. *)
Definition remove (k : string) (c : t) : t :=
  filter (fun l => negb (has_key k l)) c.

(** Modelled from the spec: the recency update of a read or write
    ([OrderedDict.move_to_end] in the library). *)
Definition move_to_end (k : string) (c : t) : t :=
  match find (has_key k) c with
  | Some l => remove k c ++ [l]
  | None => c
  end.

(** Modelled from the spec: [TTLCache.__getitem__], the read [cache[key]]
    (the [get] of section 4.2).  A present entry becomes the most recently
    used one; an absent or expired one is a miss, which the subscript
    raises as [KeyError]. *)
Definition getitem (now : Z) (c : t) (k : string)
  : Result (list Post.t) * t :=
  match find (has_key k) c with
  | Some l =>
      if live now l then (Ok (value l), move_to_end k c)
      else (Err (KeyError k), move_to_end k c)
  | None => (Err (KeyError k), c)
  end.

(** Modelled from the spec: [TTLCache.expire].  Section 4.2 makes an
    expired entry eligible for eviction; every entry whose expiry has
    passed is dropped. *)
Definition expire (now : Z) (c : t) : t := filter (live now) c.

(** Modelled from the spec: the eviction of section 4.2, [popitem]
    repeated while [currsize + 1 > maxsize]; the least recently used
    entries leave first. *)
Definition make_room (c : t) : t :=
  skipn (currsize c + 1 - maxsize) c.

(** Modelled from the spec: [TTLCache.__setitem__], the write
    [cache[key] = value] (the [put] of section 4.2): the entry is inserted
    or overwritten with [expires = now + ttl], after expired entries were
    purged and, for a new key, room was made.  Every value has size 1,
    which never exceeds [maxsize], so the "value too large" check of the
    library cannot fire. *)
Definition setitem (now : Z) (c : t) (k : string) (v : list Post.t) : t :=
  let c1 := expire now c in
  let l := mkLink k v (now + ttl) in
  match find (has_key k) c1 with
  | Some _ => remove k c1 ++ [l]
  | None => make_room c1 ++ [l]
  end.

Definition keys (c : t) : list string := map key c.

(** The invariant of the cache: one entry per key, at most [maxsize]
    entries. *)
Definition ok (c : t) : Prop :=
  NoDup (keys c) /\ (currsize c <= maxsize)%nat.

End TTLCache.

(** ** The store and the state of the process *)

Record DB := mkDB {
  users : list User.t;
  posts : list Post.t;
  next_user_id : Z;
  next_post_id : Z
}.

Record State := mkState {
  db : DB;
  cache : TTLCache.t
}.

Definition with_db (st : State) (d : DB) : State :=
  mkState d (cache st).

Definition with_cache (st : State) (c : TTLCache.t) : State :=
  mkState (db st) c.

(** ** Queries *)

Definition token_is (token : string) (u : User.t) : bool :=
  match User.token u with
  | Some t => String.eqb t token
  | None => false
  end.

Definition email_is (email : string) (u : User.t) : bool :=
  String.eqb (User.email u) email.

(** [db.query(User).filter(User.token == token).first()] *)
Definition get_user_by_token (d : DB) (token : string) : option User.t :=
  find (token_is token) (users d).

(** [db.query(User).filter(User.email == email).first()] *)
Definition get_user_by_email (d : DB) (email : string) : option User.t :=
  find (email_is email) (users d).

Definition owned_by (uid : Z) (p : Post.t) : bool :=
  Post.user_id p =? uid.

(** [db.query(Post).filter(Post.user_id == user.id).all()] *)
Definition posts_of (d : DB) (uid : Z) : list Post.t :=
  filter (owned_by uid) (posts d).

(** [db.query(Post).filter(Post.id == post_id, Post.user_id == user.id).first()] *)
Definition find_owned_post (d : DB) (post_id uid : Z) : option Post.t :=
  find (fun p => (Post.id p =? post_id) && owned_by uid p) (posts d).

(** [db.add(new_user); db.commit()] *)
Definition insert_user (d : DB) (u : User.t) : DB :=
  mkDB (users d ++ [u]) (posts d) (next_user_id d + 1) (next_post_id d).

(** [db.add(new_post); db.commit()] *)
Definition insert_post (d : DB) (p : Post.t) : DB :=
  mkDB (users d) (posts d ++ [p]) (next_user_id d) (next_post_id d + 1).

(** [db.delete(post); db.commit()]: DELETE by primary key. *)
Definition delete_row (d : DB) (p : Post.t) : DB :=
  mkDB (users d)
       (filter (fun q => negb (Post.id q =? Post.id p)) (posts d))
       (next_user_id d) (next_post_id d).

(** ** The handlers *)

Section Handlers.

(** [int(time.time())] as evaluated once, when the class body of
    [Post] runs: the scalar handed to [Column(Integer, default=...)]. *)
Variable created_at_default : Z.

(** The bcrypt context, a black box: hashing draws a salt.  Both are total
    here; a call on which passlib raises instead of answering is outside
    the model. *)
Variable hash_password : string -> string -> string.
Variable verify_password : string -> string -> bool.

(** [signup]; [salt] and [token_hex] are the random draws of the call.
    The unique index on [users.token] rejects the commit of a token
    that is already stored. *)
Definition signup (user : UserCreate.t) (salt token_hex : string)
           (st : State) : State * Result string :=
  match get_user_by_email (db st) (UserCreate.email user) with
  | Some _ => (st, Err (HTTPException 400 "Email already registered"))
  | None =>
      let hashed_pw := hash_password salt (UserCreate.password user) in
      let new_user :=
        User.mk (next_user_id (db st)) (UserCreate.email user)
                hashed_pw (Some token_hex) in
      match get_user_by_token (db st) token_hex with
      | Some _ => (st, Err IntegrityError)
      | None => (with_db st (insert_user (db st) new_user), Ok token_hex)
      end
  end.

Definition login (user : UserLogin.t) (st : State)
  : State * Result (option string) :=
  match get_user_by_email (db st) (UserLogin.email user) with
  | None => (st, Err (HTTPException 400 "Invalid credentials"))
  | Some db_user =>
      if verify_password (UserLogin.password user) (User.password db_user)
      then (st, Ok (User.token db_user))
      else (st, Err (HTTPException 400 "Invalid credentials"))
  end.

Definition add_post (post : PostCreate.t) (token : string) (st : State)
  : State * Result Z :=
  match get_user_by_token (db st) token with
  | None => (st, Err (HTTPException 401 "Invalid or missing token"))
  | Some user =>
      let new_post :=
        Post.mk (next_post_id (db st)) (PostCreate.text post)
                (User.id user) created_at_default in
      (with_db st (insert_post (db st) new_post), Ok (Post.id new_post))
  end.

(** [get_posts]; [now] is the reading of the timer taken by
    [token in cache], [now'] the one taken by the access after it. *)
Definition get_posts (now now' : Z) (token : string) (st : State)
  : State * Result (list Post.t) :=
  match get_user_by_token (db st) token with
  | None => (st, Err (HTTPException 401 "Invalid or missing token"))
  | Some user =>
      if TTLCache.contains now (cache st) token then
        let '(r, c) := TTLCache.getitem now' (cache st) token in
        (with_cache st c, r)
      else
        let posts := posts_of (db st) (User.id user) in
        (with_cache st (TTLCache.setitem now' (cache st) token posts),
         Ok posts)
  end.

Definition delete_post (post_id : Z) (token : string) (st : State)
  : State * Result string :=
  match get_user_by_token (db st) token with
  | None => (st, Err (HTTPException 401 "Invalid or missing token"))
  | Some user =>
      match find_owned_post (db st) post_id (User.id user) with
      | None => (st, Err (HTTPException 404 "Post not found"))
      | Some post => (with_db st (delete_row (db st) post), Ok "Post deleted")
      end
  end.

(** ** Requests and runs *)

Inductive Request :=
| Signup (user : UserCreate.t) (salt token_hex : string)
| Login (user : UserLogin.t)
| AddPost (post : PostCreate.t) (token : string)
| GetPosts (token : string)
| DeletePost (post_id : Z) (token : string).

(** A request together with the clock readings taken while it is served:
    [time] is [int(time.time())]; [monotonic] and [monotonic'] are the two
    readings of the timer of the cache (see [get_posts]). *)
Record Event := mkEvent {
  time : Z;
  monotonic : Z;
  monotonic' : Z;
  request : Request
}.

Inductive Response :=
| TokenResponse (token : option string)
| PostIDResponse (postID : Z)
| PostsResponse (posts : list Post.t)
| DetailResponse (detail : string).

Definition respond {A} (f : A -> Response) (x : State * Result A)
  : State * Result Response :=
  match x with
  | (st, Ok a) => (st, Ok (f a))
  | (st, Err e) => (st, Err e)
  end.

Definition step (st : State) (ev : Event) : State * Result Response :=
  match request ev with
  | Signup user salt token_hex =>
      respond (fun t => TokenResponse (Some t)) (signup user salt token_hex st)
  | Login user => respond TokenResponse (login user st)
  | AddPost post token => respond PostIDResponse (add_post post token st)
  | GetPosts token =>
      respond PostsResponse (get_posts (monotonic ev) (monotonic' ev) token st)
  | DeletePost post_id token =>
      respond DetailResponse (delete_post post_id token st)
  end.

Definition run (st : State) (evs : list Event) : State :=
  fold_left (fun s ev => fst (step s ev)) evs st.

End Handlers.

(** ** Predicates on the store *)

(** No account holds [token]. *)
Definition never_issued (d : DB) (token : string) : Prop :=
  forall u, In u (users d) -> User.token u <> Some token.

(** The primary key of [posts]. *)
Definition posts_pk (d : DB) : Prop := NoDup (map Post.id (posts d)).

(** The primary key together with its counter: every id in use lies below
    the next one to be handed out. *)
Definition posts_seq_ok (d : DB) : Prop :=
  posts_pk d /\ forall p, In p (posts d) -> Post.id p < next_post_id d.

Definition is_hex_digit (c : ascii) : bool :=
  existsb (Ascii.eqb c) (list_ascii_of_string "0123456789abcdef").

(** The shape of every value of [secrets.token_hex(16)]: 32 hexadecimal
    digits. *)
Definition is_token_hex (s : string) : bool :=
  (String.length s =? 32)%nat && forallb is_hex_digit (list_ascii_of_string s).

(** Every stored token came out of [secrets.token_hex(16)]. *)
Definition tokens_are_token_hex (d : DB) : Prop :=
  forall u t, In u (users d) -> User.token u = Some t -> is_token_hex t = true.

(** The random draw of a signup has the shape of [secrets.token_hex(16)]. *)
Definition event_token_hex (ev : Event) : Prop :=
  match request ev with
  | Signup _ _ token_hex => is_token_hex token_hex = true
  | _ => True
  end.

(** All three protected operations turn [token] away and change nothing. *)
Definition unauthorized (created_at_default now now' : Z) (post : PostCreate.t)
           (post_id : Z) (st : State) (token : string) : Prop :=
  add_post created_at_default post token st = (st, Err AuthorizationError) /\
  get_posts now now' token st = (st, Err AuthorizationError) /\
  delete_post post_id token st = (st, Err AuthorizationError).

(** ** A small concrete instance *)

Module Sample.

(** A stand-in for the bcrypt pair with the one property the handlers
    rely on: a digest verifies against the password it was made from. *)
Definition hash_password (salt password : string) : string :=
  "$2b$" ++ password.
Definition verify_password (plain hashed : string) : bool :=
  String.eqb hashed ("$2b$" ++ plain).

Definition alice_token : string := "00112233445566778899aabbccddeeff".
Definition bob_token : string := "a3f1c29e5b7d4086a3f1c29e5b7d4086".
Definition fresh_token : string := "ffffffffffffffffffffffffffffffff".

Definition alice : User.t :=
  User.mk 1 "alice@example.com" (hash_password "salt-a" "wonderland")
          (Some alice_token).
Definition bob : User.t :=
  User.mk 2 "bob@example.com" (hash_password "salt-b" "builder1")
          (Some bob_token).

Definition alice_post : Post.t := Post.mk 1 "first" 1 1700000000.
Definition bob_post : Post.t := Post.mk 2 "second" 2 1700000000.
Definition alice_post' : Post.t := Post.mk 3 "third" 1 1700000000.

Definition store : DB :=
  mkDB [alice; bob] [alice_post; bob_post; alice_post'] 3 4.

Definition state : State := mkState store TTLCache.empty.

Definition hello : PostCreate.t := PostCreate.mk "hello".

(** The process was started at wall-clock second 1700000000. *)
Definition started : Z := 1700000000.

(** A cache filled to capacity: 100 live entries under 100 distinct keys. *)
Definition nth_key (n : nat) : string :=
  String (ascii_of_nat (48 + n / 10)) (String (ascii_of_nat (48 + n mod 10)) "").
Definition full_cache : TTLCache.t :=
  map (fun n => TTLCache.mkLink (nth_key n) [] 1000) (seq 0 100).

Fixpoint distinct (l : list string) : bool :=
  match l with
  | [] => true
  | x :: l' => negb (existsb (String.eqb x) l') && distinct l'
  end.

End Sample.

(** ** Invariants of the state *)

(** The tokens in use; an account whose [token] is NULL contributes none. *)
Definition user_tokens (d : DB) : list string :=
  flat_map (fun u => match User.token u with Some t => [t] | None => [] end)
           (users d).

(** The constraints of [users]: primary key, unique email, unique token,
    and ids below the next one to be handed out. *)
Definition accounts_ok (d : DB) : Prop :=
  NoDup (map User.id (users d)) /\
  NoDup (map User.email (users d)) /\
  NoDup (user_tokens d) /\
  forall u, In u (users d) -> User.id u < next_user_id d.

(** [ForeignKey("users.id")]: every post belongs to a stored account. *)
Definition posts_fk (d : DB) : Prop :=
  forall p, In p (posts d) ->
            exists u, In u (users d) /\ User.id u = Post.user_id p.

(** Every cache entry sits under a token that resolves, and holds posts of
    the account the token resolves to. *)
Definition cache_owned (st : State) : Prop :=
  forall l, In l (cache st) ->
            exists u, get_user_by_token (db st) (TTLCache.key l) = Some u /\
                      forall p, In p (TTLCache.value l) ->
                                Post.user_id p = User.id u.

Definition state_ok (st : State) : Prop :=
  accounts_ok (db st) /\ posts_seq_ok (db st) /\ posts_fk (db st) /\
  cache_owned st /\ TTLCache.ok (cache st).

(** What one request can do to the state: nothing, or exactly one of the
    five effects of the handlers. *)
Inductive changes (st : State) : State -> Prop :=
| ch_none : changes st st
| ch_signup (u : User.t) (token_hex : string) :
    get_user_by_email (db st) (User.email u) = None ->
    get_user_by_token (db st) token_hex = None ->
    User.token u = Some token_hex ->
    User.id u = next_user_id (db st) ->
    changes st (with_db st (insert_user (db st) u))
| ch_add_post (token : string) (u : User.t) (p : Post.t) :
    get_user_by_token (db st) token = Some u ->
    Post.id p = next_post_id (db st) ->
    Post.user_id p = User.id u ->
    changes st (with_db st (insert_post (db st) p))
| ch_delete_post (token : string) (u : User.t) (p : Post.t) :
    get_user_by_token (db st) token = Some u ->
    In p (posts (db st)) ->
    Post.user_id p = User.id u ->
    changes st (with_db st (delete_row (db st) p))
| ch_cache_read (token : string) (u : User.t) (l : TTLCache.Link) :
    get_user_by_token (db st) token = Some u ->
    find (TTLCache.has_key token) (cache st) = Some l ->
    changes st (with_cache st (TTLCache.move_to_end token (cache st)))
| ch_cache_write (now : Z) (token : string) (u : User.t) :
    get_user_by_token (db st) token = Some u ->
    changes st (with_cache st
                  (TTLCache.setitem now (cache st) token
                                    (posts_of (db st) (User.id u)))).

Module Trace.

(** A day in the life of the sample store. *)
Definition carol : UserCreate.t := UserCreate.mk "carol@example.com" "carol-pw".

Definition events : list Event :=
  [ mkEvent 1700000010 10 10 (Signup carol "salt-c" Sample.fresh_token);
    mkEvent 1700000020 20 20
            (Signup (UserCreate.mk "alice@example.com" "intruder") "salt-x"
                    "0f0f0f0f0f0f0f0f0f0f0f0f0f0f0f0f");
    mkEvent 1700000030 30 31 (GetPosts Sample.alice_token);
    mkEvent 1700000040 40 40 (AddPost Sample.hello Sample.alice_token);
    mkEvent 1700000050 50 50 (DeletePost 2 Sample.alice_token);
    mkEvent 1700000060 60 60 (DeletePost 1 Sample.alice_token);
    mkEvent 1700000070 70 71 (GetPosts Sample.bob_token);
    mkEvent 1700000080 80 81 (GetPosts Sample.alice_token) ].

Definition final : State :=
  run Sample.started Sample.hash_password Sample.verify_password
      Sample.state events.

End Trace.

(** ** The bcrypt context, concretely *)

Module Bcrypt.

(** Modelled from the spec: the pair [hash(plain) -> digest] and
    [verify(plain, digest) -> bool] of section 4.1, which the source takes
    from passlib ([CryptContext(schemes=["bcrypt"])]) and whose code is not
    among the sources of the repository.  The stand-in keeps the two
    things bcrypt fixes: a digest is made of the scheme identifier, the
    22 characters of the salt and a part that depends on the first 72
    bytes of the password only; verifying reads the salt back from the
    digest, hashes again and compares.  The dependent part is the
    truncated password itself, where bcrypt has a one-way function. *)
Definition truncate_size : nat := 72.

Definition truncate (password : string) : string :=
  substring 0 truncate_size password.

Definition ident : string := "$2b$12$".

Definition salt_of (hashed : string) : string := substring 7 22 hashed.

Definition hash_password (salt password : string) : string :=
  ident ++ salt ++ truncate password.

Definition verify_password (plain hashed : string) : bool :=
  String.eqb hashed (hash_password (salt_of hashed) plain).

(** A password of 77 bytes and another one that agrees with it on the
    first 72 bytes and differs from byte 73 on. *)
Definition stem : string :=
  "correct-horse-battery-staple-correct-horse-battery-staple-correct-horse-".
Definition password : string := stem ++ "first".
Definition other_password : string := stem ++ "other".

Definition salt : string := "N9qo8uLOickgx2ZMRZoMye".
Definition dave_token : string := "d4d4d4d4d4d4d4d4d4d4d4d4d4d4d4d4".
Definition dave : UserCreate.t := UserCreate.mk "dave@example.com" password.

(** The sample store after dave has signed up. *)
Definition state : State :=
  fst (signup hash_password dave salt dave_token Sample.state).

End Bcrypt.


(** * Properties *)

(** ** Generic list facts used below *)

Lemma find_filter_neg_shorter {A} (f : A -> bool) (l : list A) (x : A) :
  find f l = Some x ->
  (List.length (filter (fun y => negb (f y)) l) < List.length l)%nat.
Proof.
  induction l as [|a l IH]; simpl; [discriminate|].
  destruct (f a) eqn:Fa; simpl; intros H.
  - pose proof (filter_length_le (fun y => negb (f y)) l). lia.
  - specialize (IH H). lia.
Qed.

Lemma find_none_filter_neg {A} (f : A -> bool) (l : list A) :
  find f l = None -> filter (fun y => negb (f y)) l = l.
Proof.
  induction l as [|a l IH]; simpl; [reflexivity|].
  destruct (f a) eqn:Fa; simpl; [discriminate|].
  intros H. now rewrite IH.
Qed.

Lemma find_app_none {A} (f : A -> bool) (l1 l2 : list A) :
  find f l1 = None -> find f (l1 ++ l2) = find f l2.
Proof.
  induction l1 as [|a l1 IH]; simpl; [reflexivity|].
  destruct (f a); [discriminate | exact IH].
Qed.

Lemma find_filter_neg_none {A} (f : A -> bool) (l : list A) :
  find f (filter (fun y => negb (f y)) l) = None.
Proof.
  induction l as [|a l IH]; simpl; [reflexivity|].
  destruct (f a) eqn:Fa; simpl; [exact IH|].
  now rewrite Fa.
Qed.

Lemma find_none_iff {A} (f : A -> bool) (l : list A) :
  find f l = None <-> (forall x, In x l -> f x = false).
Proof.
  split.
  - intros H x Hx. exact (find_none f l H x Hx).
  - induction l as [|a l IH]; simpl; [reflexivity|].
    intros H. rewrite (H a (or_introl eq_refl)).
    apply IH. intros x Hx. apply H. now right.
Qed.

Lemma NoDup_map_filter {A B} (g : A -> B) (f : A -> bool) (l : list A) :
  NoDup (map g l) -> NoDup (map g (filter f l)).
Proof.
  induction l as [|a l IH]; simpl; intros H; [constructor|].
  inversion H as [|? ? Hn Hd]; subst.
  destruct (f a); simpl; [constructor|]; auto.
  intros Hin. apply Hn.
  apply in_map_iff in Hin. destruct Hin as [x [Hx Hi]].
  apply filter_In in Hi. apply in_map_iff. exists x. tauto.
Qed.

Lemma NoDup_map_skipn {A B} (g : A -> B) (n : nat) (l : list A) :
  NoDup (map g l) -> NoDup (map g (skipn n l)).
Proof.
  revert l. induction n as [|n IH]; intros [|a l]; simpl; auto.
  intros H. inversion H; subst. auto.
Qed.

Lemma In_skipn {A} (n : nat) (l : list A) (x : A) :
  In x (skipn n l) -> In x l.
Proof.
  revert l. induction n as [|n IH]; intros [|a l]; simpl; auto.
Qed.

Lemma NoDup_snoc {A} (l : list A) (x : A) :
  NoDup l -> ~ In x l -> NoDup (l ++ [x]).
Proof.
  intros Hl Hx. apply NoDup_app; [assumption | constructor; [intros []|constructor] |].
  intros y Hy [<-|[]]. contradiction.
Qed.

(** ** The cache in isolation *)

Module TTLCacheFacts.
Import TTLCache.

Lemma ok_empty : ok empty.
Proof. split; [constructor | unfold currsize, maxsize; simpl; lia]. Qed.

Lemma has_key_true (k : string) (l : Link) : has_key k l = true <-> key l = k.
Proof. unfold has_key. apply String.eqb_eq. Qed.

Lemma not_in_keys_remove (k : string) (c : t) : ~ In k (keys (remove k c)).
Proof.
  unfold keys, remove. intros H.
  apply in_map_iff in H. destruct H as [l [Hk Hl]].
  apply filter_In in Hl. destruct Hl as [_ Hl].
  apply has_key_true in Hk. now rewrite Hk in Hl.
Qed.

Lemma find_none_not_in_keys (k : string) (c : t) :
  find (has_key k) c = None -> ~ In k (keys c).
Proof.
  intros H Hin. unfold keys in Hin.
  apply in_map_iff in Hin. destruct Hin as [l [Hk Hl]].
  pose proof (find_none _ _ H l Hl) as Hf.
  apply has_key_true in Hk. congruence.
Qed.

Lemma expire_size (now : Z) (c : t) :
  (currsize (expire now c) <= currsize c)%nat.
Proof. apply filter_length_le. Qed.

Lemma make_room_size (c : t) : (currsize (make_room c) < maxsize)%nat.
Proof.
  unfold make_room, currsize. rewrite length_skipn.
  unfold currsize, maxsize. lia.
Qed.

Lemma make_room_fits (c : t) :
  (currsize c < maxsize)%nat -> make_room c = c.
Proof.
  unfold make_room. intros H.
  replace (currsize c + 1 - maxsize)%nat with 0%nat by lia. reflexivity.
Qed.

(** At capacity exactly one entry, the least recently used, is evicted. *)
Lemma make_room_full (l : Link) (c : t) :
  currsize (l :: c) = maxsize -> make_room (l :: c) = c.
Proof.
  unfold make_room. intros H. rewrite H.
  replace (maxsize + 1 - maxsize)%nat with 1%nat by lia. reflexivity.
Qed.

Lemma move_to_end_size (k : string) (c : t) :
  (currsize (move_to_end k c) <= currsize c)%nat.
Proof.
  unfold move_to_end. destruct (find (has_key k) c) eqn:F; [|lia].
  pose proof (find_filter_neg_shorter _ _ _ F).
  unfold currsize, remove. rewrite length_app. simpl. lia.
Qed.

Lemma move_to_end_keys (k : string) (c : t) :
  NoDup (keys c) -> NoDup (keys (move_to_end k c)).
Proof.
  unfold move_to_end. destruct (find (has_key k) c) as [l|] eqn:F; [|trivial].
  intros H. unfold keys. rewrite map_app. simpl.
  apply NoDup_snoc.
  - now apply NoDup_map_filter.
  - apply find_some in F. destruct F as [_ F]. apply has_key_true in F.
    rewrite F. apply not_in_keys_remove.
Qed.

Lemma getitem_ok (now : Z) (c : t) (k : string) :
  ok c -> ok (snd (getitem now c k)).
Proof.
  intros [Hd Hs]. unfold getitem.
  destruct (find (has_key k) c) as [l|] eqn:F; [|split; assumption].
  assert (ok (move_to_end k c)) as Hm.
  { split; [now apply move_to_end_keys|].
    pose proof (move_to_end_size k c). lia. }
  destruct (live now l); exact Hm.
Qed.

Lemma setitem_size (now : Z) (c : t) (k : string) (v : list Post.t) :
  (currsize c <= maxsize)%nat -> (currsize (setitem now c k v) <= maxsize)%nat.
Proof.
  intros Hs. unfold setitem.
  pose proof (expire_size now c) as He.
  destruct (find (has_key k) (expire now c)) eqn:F.
  - pose proof (find_filter_neg_shorter _ _ _ F).
    unfold currsize, remove in *. rewrite length_app. simpl. lia.
  - pose proof (make_room_size (expire now c)).
    unfold currsize in *. rewrite length_app. simpl. lia.
Qed.

Lemma setitem_keys (now : Z) (c : t) (k : string) (v : list Post.t) :
  NoDup (keys c) -> NoDup (keys (setitem now c k v)).
Proof.
  intros Hd. unfold setitem.
  assert (NoDup (keys (expire now c))) as He
      by (now apply NoDup_map_filter).
  destruct (find (has_key k) (expire now c)) eqn:F;
    unfold keys; rewrite map_app; simpl; apply NoDup_snoc.
  - now apply NoDup_map_filter.
  - apply not_in_keys_remove.
  - now apply NoDup_map_skipn.
  - intros Hin. apply (find_none_not_in_keys _ _ F).
    unfold keys. apply in_map_iff in Hin. destruct Hin as [l [Hk Hl]].
    apply in_map_iff. exists l. split; [assumption|].
    now apply In_skipn in Hl.
Qed.

Lemma setitem_ok (now : Z) (c : t) (k : string) (v : list Post.t) :
  ok c -> ok (setitem now c k v).
Proof.
  intros [Hd Hs]. split; [now apply setitem_keys | now apply setitem_size].
Qed.

(** What a lookup sees right after an insertion. *)
Lemma find_setitem (now : Z) (c : t) (k : string) (v : list Post.t) :
  find (has_key k) (setitem now c k v) = Some (mkLink k v (now + ttl)).
Proof.
  unfold setitem.
  assert (has_key k (mkLink k v (now + ttl)) = true) as Hk
      by (apply has_key_true; reflexivity).
  destruct (find (has_key k) (expire now c)) eqn:F.
  - unfold remove. rewrite find_app_none by apply find_filter_neg_none.
    simpl. now rewrite Hk.
  - rewrite find_app_none.
    + simpl. now rewrite Hk.
    + apply find_none_iff. intros x Hx. apply In_skipn in Hx.
      exact (find_none _ _ F x Hx).
Qed.

Lemma contains_setitem (now now' : Z) (c : t) (k : string) (v : list Post.t) :
  contains now' (setitem now c k v) k = (now' <? now + ttl).
Proof. unfold contains. rewrite find_setitem. reflexivity. Qed.

(** A membership test that succeeds finds an entry; the read that follows
    returns its value if the entry is still live at the second reading and
    raises [KeyError] otherwise. *)
Lemma getitem_after_contains (now now' : Z) (c : t) (k : string) :
  contains now c k = true ->
  exists l, find (has_key k) c = Some l /\ now < expires l /\
            getitem now' c k
            = (if now' <? expires l then Ok (value l) else Err (KeyError k),
               move_to_end k c).
Proof.
  unfold contains, getitem, live.
  destruct (find (has_key k) c) as [l|]; [|discriminate].
  intros H. exists l. apply Z.ltb_lt in H.
  repeat split; [assumption|]. now destruct (now' <? expires l).
Qed.

End TTLCacheFacts.

(** ** The handlers *)

Section HandlerFacts.

Variable created_at_default : Z.
Variable hash_password : string -> string -> string.
Variable verify_password : string -> string -> bool.

Lemma never_issued_lookup (d : DB) (token : string) :
  never_issued d token <-> get_user_by_token d token = None.
Proof.
  unfold never_issued, get_user_by_token. rewrite find_none_iff.
  split; intros H u Hu.
  - unfold token_is. destruct (User.token u) as [t|] eqn:T; [|reflexivity].
    apply String.eqb_neq. intros ->. exact (H u Hu T).
  - intros T. specialize (H u Hu). unfold token_is in H. rewrite T in H.
    now rewrite String.eqb_refl in H.
Qed.

Lemma get_user_by_token_some (d : DB) (token : string) (u : User.t) :
  get_user_by_token d token = Some u ->
  In u (users d) /\ User.token u = Some token.
Proof.
  unfold get_user_by_token. intros H. apply find_some in H.
  destruct H as [Hin Ht]. split; [assumption|].
  unfold token_is in Ht. destruct (User.token u); [|discriminate].
  apply String.eqb_eq in Ht. now subst.
Qed.

Lemma get_user_by_email_some (d : DB) (email : string) (u : User.t) :
  get_user_by_email d email = Some u ->
  In u (users d) /\ User.email u = email.
Proof.
  unfold get_user_by_email. intros H. apply find_some in H.
  destruct H as [Hin He]. split; [assumption|].
  now apply String.eqb_eq in He.
Qed.

Lemma find_owned_post_some (d : DB) (post_id uid : Z) (p : Post.t) :
  find_owned_post d post_id uid = Some p ->
  In p (posts d) /\ Post.id p = post_id /\ Post.user_id p = uid.
Proof.
  unfold find_owned_post, owned_by. intros H. apply find_some in H.
  destruct H as [Hin Hp]. apply andb_prop in Hp. destruct Hp as [H1 H2].
  apply Z.eqb_eq in H1, H2. auto.
Qed.

Lemma find_owned_post_none (d : DB) (post_id uid : Z) :
  find_owned_post d post_id uid = None <->
  (forall p, In p (posts d) -> Post.id p = post_id -> Post.user_id p <> uid).
Proof.
  unfold find_owned_post, owned_by. rewrite find_none_iff.
  split; intros H p Hp.
  - intros Hid Hu. specialize (H p Hp).
    apply andb_false_iff in H. rewrite !Z.eqb_neq in H. tauto.
  - apply andb_false_iff. rewrite !Z.eqb_neq.
    destruct (Z.eq_dec (Post.id p) post_id) as [E|E]; [right|left]; auto.
Qed.

(** Whatever a handler raises, it raises before it writes. *)
Lemma signup_err user salt token_hex st st' e :
  signup hash_password user salt token_hex st = (st', Err e) -> st' = st.
Proof.
  unfold signup.
  destruct (get_user_by_email _ _); [congruence|].
  destruct (get_user_by_token _ _); congruence.
Qed.

Lemma login_state user st : fst (login verify_password user st) = st.
Proof.
  unfold login. destruct (get_user_by_email _ _); [|reflexivity].
  destruct (verify_password _ _); reflexivity.
Qed.

Lemma add_post_err post token st st' e :
  add_post created_at_default post token st = (st', Err e) -> st' = st.
Proof.
  unfold add_post. destruct (get_user_by_token _ _); congruence.
Qed.

Lemma delete_post_err post_id token st st' e :
  delete_post post_id token st = (st', Err e) -> st' = st.
Proof.
  unfold delete_post. destruct (get_user_by_token _ _); [|congruence].
  destruct (find_owned_post _ _ _); congruence.
Qed.

(** [get_posts] fails at the token gate, before it touches the cache, or
    with the [KeyError] of an entry that expired between the membership
    test and the read. *)
Lemma get_posts_err now now' token st st' e :
  get_posts now now' token st = (st', Err e) ->
  (e = AuthorizationError /\ st' = st) \/ e = KeyError token.
Proof.
  unfold get_posts. destruct (get_user_by_token _ _);
    [|intros H; inversion H; auto].
  destruct (TTLCache.contains now (cache st) token) eqn:C; [|discriminate].
  destruct (TTLCacheFacts.getitem_after_contains now now' _ _ C)
    as (l & _ & _ & G).
  rewrite G. destruct (now' <? TTLCache.expires l); [discriminate|].
  intros H. inversion H. now right.
Qed.

Lemma respond_err {A} (f : A -> Response) x st' e :
  respond f x = (st', Err e) -> x = (st', Err e).
Proof. destruct x as [st [a|e0]]; simpl; congruence. Qed.

Lemma step_err st ev st' e :
  step created_at_default hash_password verify_password st ev = (st', Err e) ->
  st' = st \/ exists token, e = KeyError token.
Proof.
  unfold step. destruct (request ev); intros H; apply respond_err in H.
  - left. eapply signup_err; eassumption.
  - left. rewrite <- (login_state user st). now rewrite H.
  - left. eapply add_post_err; eassumption.
  - apply get_posts_err in H. destruct H as [[_ H]|H]; [now left|].
    right. now exists token.
  - left. eapply delete_post_err; eassumption.
Qed.

End HandlerFacts.

(** ** Writes and the cache *)

(** C2. Creating a post and deleting a post leave the cache exactly as it
    was, whatever the token and the input are and whether the request
    succeeds or fails: no entry is invalidated, inserted or updated, the
    entry of the requesting token included. *)
Theorem writes_leave_cache_unchanged
        (created_at_default : Z) (post : PostCreate.t) (post_id : Z)
        (token : string) (st : State) :
  cache (fst (add_post created_at_default post token st)) = cache st /\
  cache (fst (delete_post post_id token st)) = cache st.
Proof.
  unfold add_post, delete_post.
  destruct (get_user_by_token (db st) token) as [user|]; simpl; [|split; reflexivity].
  destruct (find_owned_post (db st) post_id (User.id user)); split; reflexivity.
Qed.

(** ** The token gate *)

Lemma unauthorized_of_lookup created_at_default now now' post post_id st token :
  get_user_by_token (db st) token = None ->
  unauthorized created_at_default now now' post post_id st token.
Proof.
  intros H. unfold unauthorized, add_post, get_posts, delete_post.
  rewrite H. repeat split.
Qed.

Lemma empty_is_not_token_hex (d : DB) :
  tokens_are_token_hex d -> never_issued d "".
Proof.
  intros H u Hu T. specialize (H u "" Hu T). discriminate.
Qed.

(** Signing up with a draw of [secrets.token_hex(16)] keeps every stored
    token of that shape; the other requests do not touch [users]. *)
Lemma step_users created_at_default hash_password verify_password st ev :
  users (db (fst (step created_at_default hash_password verify_password st ev)))
  = users (db st) \/
  exists user salt token_hex u,
    request ev = Signup user salt token_hex /\
    User.token u = Some token_hex /\
    users (db (fst (step created_at_default hash_password verify_password st ev)))
    = users (db st) ++ [u].
Proof.
  unfold step. destruct (request ev) as [user salt token_hex|user|post token|token|post_id token].
  - unfold signup. destruct (get_user_by_email _ _); [left; reflexivity|].
    destruct (get_user_by_token _ _); [left; reflexivity|].
    right. simpl.
    exists user, salt, token_hex,
      (User.mk (next_user_id (db st)) (UserCreate.email user)
               (hash_password salt (UserCreate.password user)) (Some token_hex)).
    split; [reflexivity | split; reflexivity].
  - left. unfold login. destruct (get_user_by_email _ _); [|reflexivity].
    destruct (verify_password _ _); reflexivity.
  - left. unfold add_post. destruct (get_user_by_token _ _); reflexivity.
  - left. unfold get_posts. destruct (get_user_by_token _ _); [|reflexivity].
    destruct (TTLCache.contains _ _ _); [|reflexivity].
    destruct (TTLCache.getitem _ _ _) as [[a|e] c]; reflexivity.
  - left. unfold delete_post. destruct (get_user_by_token _ _); [|reflexivity].
    destruct (find_owned_post _ _ _); reflexivity.
Qed.

Lemma step_tokens_are_token_hex
      created_at_default hash_password verify_password st ev :
  event_token_hex ev ->
  tokens_are_token_hex (db st) ->
  tokens_are_token_hex
    (db (fst (step created_at_default hash_password verify_password st ev))).
Proof.
  intros Hev H.
  destruct (step_users created_at_default hash_password verify_password st ev)
    as [E | (user & salt & token_hex & u & Hr & Ht & E)];
    unfold tokens_are_token_hex; rewrite E; [exact H|].
  intros u' t Hin T. apply in_app_iff in Hin. destruct Hin as [Hin|[<-|[]]].
  - exact (H u' t Hin T).
  - unfold event_token_hex in Hev. rewrite Hr in Hev. congruence.
Qed.

Lemma run_tokens_are_token_hex
      created_at_default hash_password verify_password evs st :
  Forall event_token_hex evs ->
  tokens_are_token_hex (db st) ->
  tokens_are_token_hex
    (db (run created_at_default hash_password verify_password st evs)).
Proof.
  intros Hevs. revert st. induction Hevs as [|ev evs Hev _ IH]; intros st H.
  - exact H.
  - simpl. apply IH. now apply step_tokens_are_token_hex.
Qed.

(** C5. A token that no account holds is turned away by each of the three
    protected operations with [AuthorizationError] (401), and nothing is
    changed.  The empty string is such a token in every store whose
    tokens were drawn by [secrets.token_hex(16)]. *)
Theorem unissued_token_is_unauthorized
        (created_at_default now now' : Z) (post : PostCreate.t) (post_id : Z)
        (st : State) :
  (forall token, never_issued (db st) token ->
                 unauthorized created_at_default now now' post post_id st token) /\
  (tokens_are_token_hex (db st) ->
   unauthorized created_at_default now now' post post_id st "").
Proof.
  split.
  - intros token H. apply unauthorized_of_lookup.
    now apply never_issued_lookup.
  - intros H. apply unauthorized_of_lookup.
    apply never_issued_lookup. now apply empty_is_not_token_hex.
Qed.

Lemma unissued_token_is_unauthorized_witness :
  unauthorized Sample.started 1000 1001 Sample.hello 1 Sample.state
               Sample.fresh_token /\
  unauthorized Sample.started 1000 1001 Sample.hello 1 Sample.state "".
Proof.
  pose proof (unissued_token_is_unauthorized
                Sample.started 1000 1001 Sample.hello 1 Sample.state) as [H1 H2].
  split.
  - apply H1. intros u [<-|[<-|[]]]; discriminate.
  - apply H2. intros u t [<-|[<-|[]]] T; inversion T; reflexivity.
Defined.

(** ** Deleting a post *)

(** C6. For an authenticated account, [delete_post] answers
    [NotFoundError] (404) whenever no post with the requested id is owned
    by that account, be it because the id does not exist or because the
    post belongs to somebody else; the state is then unchanged, so no post
    is deleted.  The lookup is scoped by owner: a post with that id owned
    by the account makes the request succeed. *)
Theorem delete_post_not_found_unless_owned
        (st : State) (token : string) (user : User.t) (post_id : Z) :
  get_user_by_token (db st) token = Some user ->
  ((forall p, In p (posts (db st)) -> Post.id p = post_id ->
              Post.user_id p <> User.id user) ->
   delete_post post_id token st = (st, Err NotFoundError)) /\
  (forall p, In p (posts (db st)) -> Post.id p = post_id ->
             Post.user_id p = User.id user ->
             snd (delete_post post_id token st) = Ok "Post deleted").
Proof.
  intros Hu. unfold delete_post. rewrite Hu. split.
  - intros H. apply find_owned_post_none in H. now rewrite H.
  - intros p Hp Hid Hown.
    destruct (find_owned_post (db st) post_id (User.id user)) eqn:F;
      [reflexivity|].
    rewrite find_owned_post_none in F. now elim (F p Hp Hid).
Qed.

Lemma delete_post_not_found_unless_owned_witness :
  delete_post 2 Sample.alice_token Sample.state
  = (Sample.state, Err NotFoundError) /\
  delete_post 99 Sample.alice_token Sample.state
  = (Sample.state, Err NotFoundError) /\
  snd (delete_post 1 Sample.alice_token Sample.state) = Ok "Post deleted".
Proof.
  assert (get_user_by_token (db Sample.state) Sample.alice_token
          = Some Sample.alice) as Hu by reflexivity.
  split; [|split].
  - apply (proj1 (delete_post_not_found_unless_owned
                    Sample.state Sample.alice_token Sample.alice 2 Hu)).
    intros p [<-|[<-|[<-|[]]]]; simpl; intros; lia.
  - apply (proj1 (delete_post_not_found_unless_owned
                    Sample.state Sample.alice_token Sample.alice 99 Hu)).
    intros p [<-|[<-|[<-|[]]]]; simpl; intros; lia.
  - apply (proj2 (delete_post_not_found_unless_owned
                    Sample.state Sample.alice_token Sample.alice 1 Hu)
                 Sample.alice_post); simpl; auto.
Defined.

(** The primary key is an invariant of the handlers. *)
Lemma step_posts_seq_ok created_at_default hash_password verify_password st ev :
  posts_seq_ok (db st) ->
  posts_seq_ok
    (db (fst (step created_at_default hash_password verify_password st ev))).
Proof.
  intros [Hpk Hlt]. unfold step.
  destruct (request ev) as [user salt token_hex|user|post token|token|post_id token].
  - unfold signup. destruct (get_user_by_email _ _); [split; assumption|].
    destruct (get_user_by_token _ _); split; assumption.
  - unfold login. destruct (get_user_by_email _ _); [|split; assumption].
    destruct (verify_password _ _); split; assumption.
  - unfold add_post. destruct (get_user_by_token _ _); [|split; assumption].
    unfold posts_seq_ok, posts_pk. simpl. split.
    + rewrite map_app. simpl. apply NoDup_snoc; [exact Hpk|].
      intros Hin. apply in_map_iff in Hin. destruct Hin as [p [E Hp]].
      specialize (Hlt p Hp). lia.
    + intros p Hp. apply in_app_iff in Hp. destruct Hp as [Hp|[<-|[]]].
      * specialize (Hlt p Hp). lia.
      * simpl. lia.
  - unfold get_posts. destruct (get_user_by_token _ _); [|split; assumption].
    destruct (TTLCache.contains _ _ _); [|split; assumption].
    destruct (TTLCache.getitem _ _ _) as [[a|e] c]; split; assumption.
  - unfold delete_post. destruct (get_user_by_token _ _); [|split; assumption].
    destruct (find_owned_post _ _ _); [|split; assumption].
    unfold posts_seq_ok, posts_pk. simpl. split.
    + now apply NoDup_map_filter.
    + intros p Hp. apply filter_In in Hp. now apply Hlt.
Qed.

Lemma filter_out_unique_id (l : list Post.t) (p : Post.t) :
  NoDup (map Post.id l) -> In p l ->
  exists l1 l2, l = l1 ++ p :: l2 /\
                filter (fun q => negb (Post.id q =? Post.id p)) l = l1 ++ l2.
Proof.
  induction l as [|a l IH]; simpl; intros Hd Hin; [contradiction|].
  inversion Hd as [|? ? Hn Hd']; subst.
  destruct Hin as [->|Hin].
  - exists [], l. split; [reflexivity|].
    rewrite Z.eqb_refl. simpl.
    apply find_none_filter_neg with (f := fun q => Post.id q =? Post.id p).
    apply find_none_iff. intros q Hq. apply Z.eqb_neq. intros E.
    apply Hn. rewrite <- E. now apply in_map.
  - destruct (IH Hd' Hin) as (l1 & l2 & E1 & E2).
    exists (a :: l1), l2. split; [simpl; congruence|].
    assert ((Post.id a =? Post.id p) = false) as Hne.
    { apply Z.eqb_neq. intros E. apply Hn. rewrite E. now apply in_map. }
    rewrite Hne. simpl. now rewrite E2.
Qed.

(** C9. A successful [delete_post] removes exactly one row of [posts], the
    one whose id was requested, which is owned by the requesting account;
    the other posts keep their place, and the accounts with their tokens,
    the id counters and the cache are unchanged. *)
Theorem delete_post_removes_exactly_one
        (st st' : State) (token : string) (post_id : Z) (detail : string) :
  posts_pk (db st) ->
  delete_post post_id token st = (st', Ok detail) ->
  exists user l1 p l2,
    get_user_by_token (db st) token = Some user /\
    Post.id p = post_id /\ Post.user_id p = User.id user /\
    posts (db st) = l1 ++ p :: l2 /\
    posts (db st') = l1 ++ l2 /\
    users (db st') = users (db st) /\
    next_user_id (db st') = next_user_id (db st) /\
    next_post_id (db st') = next_post_id (db st) /\
    cache st' = cache st.
Proof.
  intros Hpk. unfold delete_post.
  destruct (get_user_by_token (db st) token) as [user|]; [|discriminate].
  destruct (find_owned_post (db st) post_id (User.id user)) as [p|] eqn:F;
    [|discriminate].
  intros H. inversion H; subst; clear H.
  apply find_owned_post_some in F. destruct F as (Hin & Hid & Hown).
  destruct (filter_out_unique_id _ _ Hpk Hin) as (l1 & l2 & E1 & E2).
  exists user, l1, p, l2. simpl. repeat split; assumption.
Qed.

Lemma delete_post_removes_exactly_one_witness :
  exists user l1 p l2,
    get_user_by_token Sample.store Sample.alice_token = Some user /\
    Post.id p = 3 /\ Post.user_id p = User.id user /\
    posts Sample.store = l1 ++ p :: l2 /\
    posts (db (fst (delete_post 3 Sample.alice_token Sample.state)))
    = l1 ++ l2 /\
    users (db (fst (delete_post 3 Sample.alice_token Sample.state)))
    = users Sample.store /\
    next_user_id (db (fst (delete_post 3 Sample.alice_token Sample.state)))
    = next_user_id Sample.store /\
    next_post_id (db (fst (delete_post 3 Sample.alice_token Sample.state)))
    = next_post_id Sample.store /\
    cache (fst (delete_post 3 Sample.alice_token Sample.state))
    = cache Sample.state.
Proof.
  apply (delete_post_removes_exactly_one
           Sample.state _ Sample.alice_token 3 "Post deleted").
  - unfold posts_pk. simpl.
    repeat (constructor; [simpl; intuition discriminate|]). constructor.
  - reflexivity.
Defined.

(** ** Failed requests *)

(** C10. A request that ends in [ConflictError], [AuthenticationError],
    [AuthorizationError] or [NotFoundError] leaves the store and the cache
    exactly as they were. *)
Theorem errors_leave_state_unchanged
        (created_at_default : Z)
        (hash_password : string -> string -> string)
        (verify_password : string -> string -> bool)
        (st st' : State) (ev : Event) (e : Error) :
  step created_at_default hash_password verify_password st ev = (st', Err e) ->
  In e [ConflictError; AuthenticationError; AuthorizationError; NotFoundError] ->
  st' = st.
Proof.
  intros H He. apply step_err in H. destruct H as [H|[token ->]]; [exact H|].
  simpl in He. intuition discriminate.
Qed.

Lemma errors_leave_state_unchanged_witness :
  fst (step Sample.started Sample.hash_password Sample.verify_password
            Sample.state
            (mkEvent 1700000500 500 500 (DeletePost 2 Sample.alice_token)))
  = Sample.state.
Proof.
  apply (errors_leave_state_unchanged
           Sample.started Sample.hash_password Sample.verify_password
           Sample.state _
           (mkEvent 1700000500 500 500 (DeletePost 2 Sample.alice_token))
           NotFoundError).
  - reflexivity.
  - simpl. tauto.
Defined.

(** ** Signup and login *)

Lemma substring_prefix (s r : string) :
  substring 0 (String.length s) (s ++ r) = s.
Proof.
  induction s as [|c s IH]; simpl.
  - now destruct r.
  - now rewrite IH.
Qed.

(** The stand-in meets the contract of the bcrypt pair: a digest verifies
    against the password it was made from. *)
Lemma bcrypt_verify_hash (salt password : string) :
  String.length salt = 22%nat ->
  Bcrypt.verify_password password (Bcrypt.hash_password salt password) = true.
Proof.
  intros H. unfold Bcrypt.verify_password.
  assert (Bcrypt.salt_of (Bcrypt.hash_password salt password) = salt) as ->.
  { unfold Bcrypt.salt_of, Bcrypt.hash_password, Bcrypt.ident.
    change (substring 0 22 (salt ++ Bcrypt.truncate password) = salt).
    rewrite <- H. apply substring_prefix. }
  apply String.eqb_refl.
Qed.

(** Only the first 72 bytes of a password take part in a verification. *)
Lemma bcrypt_verify_truncates (plain plain' hashed : string) :
  Bcrypt.truncate plain = Bcrypt.truncate plain' ->
  Bcrypt.verify_password plain hashed = Bcrypt.verify_password plain' hashed.
Proof.
  intros H. unfold Bcrypt.verify_password, Bcrypt.hash_password. now rewrite H.
Qed.

Lemma bcrypt_sample_passwords :
  String.length Bcrypt.stem = 72%nat /\
  String.length Bcrypt.password = 77%nat /\
  Bcrypt.truncate Bcrypt.password = Bcrypt.stem /\
  Bcrypt.truncate Bcrypt.other_password = Bcrypt.stem.
Proof. repeat split. Qed.







(** ** The capacity of the cache *)

Lemma NoDup_map_inj_in {A B} (g : A -> B) (l : list A) (x y : A) :
  NoDup (map g l) -> In x l -> In y l -> g x = g y -> x = y.
Proof.
  induction l as [|a l IH]; simpl; intros Hd Hx Hy E; [contradiction|].
  inversion Hd as [|? ? Hn Hd']; subst.
  destruct Hx as [->|Hx], Hy as [->|Hy]; auto.
  - elim Hn. rewrite E. now apply in_map.
  - elim Hn. rewrite <- E. now apply in_map.
Qed.

Lemma filter_all {A} (f : A -> bool) (l : list A) :
  forallb f l = true -> filter f l = l.
Proof.
  induction l as [|a l IH]; simpl; [reflexivity|].
  intros H. apply andb_prop in H. destruct H as [Ha Hl].
  rewrite Ha. now rewrite IH.
Qed.

Lemma forallb_false_witness {A} (f : A -> bool) (l : list A) :
  forallb f l = false -> exists x, In x l /\ f x = false.
Proof.
  induction l as [|a l IH]; simpl; [discriminate|].
  destruct (f a) eqn:Fa; simpl; intros H.
  - destruct (IH H) as [x [Hx Fx]]. exists x. auto.
  - exists a. auto.
Qed.

Lemma distinct_sound (l : list string) : Sample.distinct l = true -> NoDup l.
Proof.
  induction l as [|x l IH]; simpl; intros H; [constructor|].
  apply andb_prop in H. destruct H as [Hx Hl].
  constructor; [|auto].
  intros Hin. apply negb_true_iff in Hx.
  assert (existsb (String.eqb x) l = true) as Hex; [|congruence].
  apply existsb_exists. exists x. split; [assumption | apply String.eqb_refl].
Qed.

Module TTLCacheEviction.
Import TTLCache TTLCacheFacts.

Lemma expire_ok (now : Z) (c : t) : ok c -> ok (expire now c).
Proof.
  intros [Hd Hs]. split.
  - now apply NoDup_map_filter.
  - pose proof (expire_size now c). lia.
Qed.

Lemma not_in_keys_find_none (k : string) (c : t) :
  ~ In k (keys c) -> find (has_key k) c = None.
Proof.
  intros H. apply find_none_iff. intros l Hl.
  destruct (has_key k l) eqn:E; [|reflexivity].
  apply has_key_true in E. elim H. rewrite <- E. now apply in_map.
Qed.

Lemma keys_expire_incl (now : Z) (c : t) (k : string) :
  In k (keys (expire now c)) -> In k (keys c).
Proof.
  unfold keys, expire. rewrite !in_map_iff.
  intros [l [Hk Hl]]. apply filter_In in Hl. exists l. tauto.
Qed.

(** Inserting a new key into a cache that holds [maxsize] entries pushes
    one of the resident keys out. *)
Lemma setitem_full_evicts (now : Z) (c : t) (k : string) (v : list Post.t) :
  ok c -> currsize c = maxsize -> ~ In k (keys c) ->
  exists l, In l c /\ ~ In (key l) (keys (setitem now c k v)).
Proof.
  intros [Hd _] Hfull Hk. unfold setitem.
  assert (find (has_key k) (expire now c) = None) as F.
  { apply not_in_keys_find_none. intros H. apply Hk.
    now apply keys_expire_incl in H. }
  rewrite F. unfold keys. rewrite map_app. simpl.
  destruct (forallb (live now) c) eqn:L.
  - unfold expire. rewrite (filter_all _ _ L).
    destruct c as [|l c']; [discriminate|].
    rewrite (make_room_full l c' Hfull).
    exists l. split; [now left|].
    simpl in Hd. inversion Hd as [|? ? Hn _]; subst.
    intros Hin. apply in_app_iff in Hin. destruct Hin as [Hin|[E|[]]].
    + contradiction.
    + apply Hk. simpl. now left.
  - destruct (forallb_false_witness _ _ L) as [l [Hl Hdead]].
    exists l. split; [assumption|].
    intros Hin. apply in_app_iff in Hin. destruct Hin as [Hin|[E|[]]].
    + apply in_map_iff in Hin. destruct Hin as [l' [E Hl']].
      apply In_skipn in Hl'. apply filter_In in Hl'. destruct Hl' as [Hl' Hlive].
      assert (l' = l) by (eapply NoDup_map_inj_in; eauto).
      subst. congruence.
    + apply Hk. rewrite E. unfold keys. now apply in_map.
Qed.

End TTLCacheEviction.

Lemma step_cache_ok created_at_default hash_password verify_password st ev :
  TTLCache.ok (cache st) ->
  TTLCache.ok
    (cache (fst (step created_at_default hash_password verify_password st ev))).
Proof.
  intros H. unfold step.
  destruct (request ev) as [user salt token_hex|user|post token|token|post_id token].
  - unfold signup. destruct (get_user_by_email _ _); [exact H|].
    destruct (get_user_by_token _ _); exact H.
  - unfold login. destruct (get_user_by_email _ _); [|exact H].
    destruct (verify_password _ _); exact H.
  - unfold add_post. destruct (get_user_by_token _ _); exact H.
  - unfold get_posts. destruct (get_user_by_token _ _); [|exact H].
    destruct (TTLCache.contains _ _ _).
    + pose proof (TTLCacheFacts.getitem_ok (monotonic' ev) (cache st) token H) as G.
      destruct (TTLCache.getitem _ _ _) as [[a|e] c]; exact G.
    + simpl. now apply TTLCacheFacts.setitem_ok.
  - unfold delete_post. destruct (get_user_by_token _ _); [|exact H].
    destruct (find_owned_post _ _ _); exact H.
Qed.

Lemma run_cache_ok created_at_default hash_password verify_password evs st :
  TTLCache.ok (cache st) ->
  TTLCache.ok
    (cache (run created_at_default hash_password verify_password st evs)).
Proof.
  revert st. induction evs as [|ev evs IH]; intros st H; [exact H|].
  simpl. apply IH. now apply step_cache_ok.
Qed.

(** C7. Whatever requests are served, at whatever clock readings, from a
    process that started with an empty cache, the cache holds one entry
    per token and at most 100 of them.  Each operation of the cache (read,
    insertion, purge of expired entries) keeps that bound, and the
    insertion of a new key into a cache that holds 100 entries removes one
    of the resident keys. *)
Theorem cache_never_exceeds_capacity :
  (forall created_at_default hash_password verify_password d evs,
      let c := cache (run created_at_default hash_password verify_password
                          (mkState d TTLCache.empty) evs) in
      NoDup (TTLCache.keys c) /\ (List.length (TTLCache.keys c) <= 100)%nat) /\
  (forall now c k v,
      TTLCache.ok c ->
      TTLCache.ok (TTLCache.setitem now c k v) /\
      TTLCache.ok (snd (TTLCache.getitem now c k)) /\
      TTLCache.ok (TTLCache.expire now c)) /\
  (forall now c k v,
      TTLCache.ok c ->
      TTLCache.currsize c = TTLCache.maxsize ->
      ~ In k (TTLCache.keys c) ->
      exists l, In l c /\
                ~ In (TTLCache.key l) (TTLCache.keys (TTLCache.setitem now c k v))).
Proof.
  split; [|split].
  - intros cad hp vp d evs c.
    destruct (run_cache_ok cad hp vp evs (mkState d TTLCache.empty)
                           TTLCacheFacts.ok_empty) as [Hd Hs].
    split; [exact Hd|].
    unfold TTLCache.keys. rewrite length_map. exact Hs.
  - intros now c k v H. split; [|split].
    + now apply TTLCacheFacts.setitem_ok.
    + now apply TTLCacheFacts.getitem_ok.
    + now apply TTLCacheEviction.expire_ok.
  - intros now c k v. apply TTLCacheEviction.setitem_full_evicts.
Qed.

Lemma full_cache_ok : TTLCache.ok Sample.full_cache.
Proof.
  split.
  - apply distinct_sound. vm_compute. reflexivity.
  - vm_compute. repeat constructor.
Defined.

Lemma cache_never_exceeds_capacity_witness :
  (TTLCache.ok (TTLCache.setitem 10 Sample.full_cache "42" []) /\
   TTLCache.ok (snd (TTLCache.getitem 10 Sample.full_cache "42")) /\
   TTLCache.ok (TTLCache.expire 10 Sample.full_cache)) /\
  exists l, In l Sample.full_cache /\
            ~ In (TTLCache.key l)
              (TTLCache.keys
                 (TTLCache.setitem 10 Sample.full_cache Sample.alice_token [])).
Proof.
  destruct cache_never_exceeds_capacity as (_ & Hstep & Hevict).
  split.
  - apply Hstep. exact full_cache_ok.
  - apply Hevict.
    + exact full_cache_ok.
    + reflexivity.
    + vm_compute. intuition discriminate.
Defined.

(** ** Listing after a create *)

Lemma posts_of_insert_post (d : DB) (p : Post.t) :
  posts_of (insert_post d p) (Post.user_id p) = posts_of d (Post.user_id p) ++ [p].
Proof.
  unfold posts_of. simpl. rewrite filter_app. simpl.
  unfold owned_by at 2. now rewrite Z.eqb_refl.
Qed.

Lemma get_posts_miss now now' token st user :
  get_user_by_token (db st) token = Some user ->
  TTLCache.contains now (cache st) token = false ->
  get_posts now now' token st
  = (with_cache st (TTLCache.setitem now' (cache st) token
                                     (posts_of (db st) (User.id user))),
     Ok (posts_of (db st) (User.id user))).
Proof. intros Hu Hc. unfold get_posts. now rewrite Hu, Hc. Qed.

Lemma get_posts_hit now now' token st user l :
  get_user_by_token (db st) token = Some user ->
  find (TTLCache.has_key token) (cache st) = Some l ->
  now < TTLCache.expires l -> now' < TTLCache.expires l ->
  get_posts now now' token st
  = (with_cache st (TTLCache.move_to_end token (cache st)),
     Ok (TTLCache.value l)).
Proof.
  intros Hu F H H'. apply Z.ltb_lt in H, H'.
  unfold get_posts, TTLCache.contains, TTLCache.getitem, TTLCache.live.
  now rewrite Hu, F, H, H'.
Qed.

Lemma find_move_to_end (k : string) (c : TTLCache.t) :
  find (TTLCache.has_key k) (TTLCache.move_to_end k c)
  = find (TTLCache.has_key k) c.
Proof.
  unfold TTLCache.move_to_end.
  destruct (find (TTLCache.has_key k) c) as [l|] eqn:F; [|exact F].
  unfold TTLCache.remove. rewrite find_app_none by apply find_filter_neg_none.
  simpl. apply find_some in F. destruct F as [_ F]. now rewrite F.
Qed.

Lemma add_post_ok created_at_default post token st user :
  get_user_by_token (db st) token = Some user ->
  add_post created_at_default post token st
  = (with_db st (insert_post (db st)
                   (Post.mk (next_post_id (db st)) (PostCreate.text post)
                            (User.id user) created_at_default)),
     Ok (next_post_id (db st))).
Proof. intros Hu. unfold add_post. now rewrite Hu. Qed.

(** C1. Let [token] resolve to an account.
    - If the cache holds no live entry for [token], a create followed at
      once by a list returns the account's earlier posts followed by the
      new post, whose text is the one submitted (["hello"] in the
      specification) and whose id is the one the create returned.
    - If a list populated the cache before the create, with its entry
      written at reading [t0'], then a list served at readings below
      [t0' + ttl] returns the sequence of before the create, and a list
      served from reading [t0' + ttl] on returns the sequence with the new
      post, also when the stale read came in between. *)
Theorem create_then_list
        (created_at_default : Z) (token text : string) (user : User.t)
        (st : State) :
  get_user_by_token (db st) token = Some user ->
  let before := posts_of (db st) (User.id user) in
  let create := add_post created_at_default (PostCreate.mk text) token in
  (forall now now',
      TTLCache.contains now (cache st) token = false ->
      exists p,
        snd (create st) = Ok (Post.id p) /\ Post.text p = text /\
        snd (get_posts now now' token (fst (create st))) = Ok (before ++ [p])) /\
  (forall t0 t0',
      TTLCache.contains t0 (cache st) token = false ->
      let listed := get_posts t0 t0' token st in
      let created := create (fst listed) in
      snd listed = Ok before /\
      exists p,
        snd created = Ok (Post.id p) /\ Post.text p = text /\
        (forall t1 t1',
            t1 <= t1' < t0' + TTLCache.ttl ->
            snd (get_posts t1 t1' token (fst created)) = Ok before) /\
        (forall t2 t2',
            t0' + TTLCache.ttl <= t2 ->
            snd (get_posts t2 t2' token (fst created)) = Ok (before ++ [p])) /\
        (forall t1 t1' t2 t2',
            t1 <= t1' < t0' + TTLCache.ttl ->
            t0' + TTLCache.ttl <= t2 ->
            snd (get_posts t2 t2' token
                   (fst (get_posts t1 t1' token (fst created))))
            = Ok (before ++ [p]))).
Proof.
  intros Hu before create.
  set (p := Post.mk (next_post_id (db st)) text (User.id user) created_at_default).
  assert (forall s, db s = db st ->
                    create s = (with_db s (insert_post (db st) p), Ok (Post.id p)))
    as Hcreate.
  { intros s E. unfold create. rewrite (add_post_ok _ _ _ _ user) by (now rewrite E).
    simpl. now rewrite E. }
  assert (posts_of (insert_post (db st) p) (User.id user) = before ++ [p]) as Hafter
      by (exact (posts_of_insert_post (db st) p)).
  split.
  - intros now now' Hc. exists p. rewrite (Hcreate st eq_refl). simpl.
    repeat split.
    rewrite (get_posts_miss now now' token _ user); simpl; auto.
    now rewrite Hafter.
  - intros t0 t0' Hc listed created.
    unfold created, listed. rewrite (get_posts_miss t0 t0' token st user Hu Hc).
    simpl. split; [reflexivity|].
    rewrite Hcreate by reflexivity. simpl.
    change (posts_of (db st) (User.id user)) with before.
    set (c := TTLCache.setitem t0' (cache st) token before).
    set (s := with_db (with_cache st c) (insert_post (db st) p)).
    assert (get_user_by_token (db s) token = Some user) as Hs by exact Hu.
    assert (find (TTLCache.has_key token) c
            = Some (TTLCache.mkLink token before (t0' + TTLCache.ttl))) as Hc'
        by apply TTLCacheFacts.find_setitem.
    assert (forall t1 t1', t1 <= t1' < t0' + TTLCache.ttl ->
                           get_posts t1 t1' token s
                           = (with_cache s (TTLCache.move_to_end token c), Ok before))
      as Hstale.
    { intros t1 t1' Ht1.
      apply (get_posts_hit t1 t1' token s user _ Hs Hc'); simpl; lia. }
    exists p. repeat split.
    + intros t1 t1' Ht1. now rewrite Hstale.
    + intros t2 t2' Ht2. rewrite (get_posts_miss t2 t2' token s user Hs).
      * simpl. now rewrite Hafter.
      * simpl. unfold TTLCache.contains. rewrite Hc'.
        now apply Z.ltb_ge.
    + intros t1 t1' t2 t2' Ht1 Ht2. rewrite (Hstale t1 t1' Ht1). simpl.
      rewrite (get_posts_miss
                 t2 t2' token (with_cache s (TTLCache.move_to_end token c)) user Hs).
      * simpl. now rewrite Hafter.
      * simpl. unfold TTLCache.contains. rewrite find_move_to_end, Hc'.
        now apply Z.ltb_ge.
Qed.

Lemma create_then_list_witness :
  let before := [Sample.alice_post; Sample.alice_post'] in
  let create := add_post Sample.started Sample.hello Sample.alice_token in
  (exists p,
      Post.text p = "hello" /\
      snd (get_posts 1000 1001 Sample.alice_token (fst (create Sample.state)))
      = Ok (before ++ [p])) /\
  (let created :=
     create (fst (get_posts 1000 1001 Sample.alice_token Sample.state)) in
   exists p,
     Post.text p = "hello" /\
     snd (get_posts 1299 1300 Sample.alice_token (fst created)) = Ok before /\
     snd (get_posts 1301 1302 Sample.alice_token (fst created))
     = Ok (before ++ [p])).
Proof.
  intros before create.
  destruct (create_then_list Sample.started Sample.alice_token "hello"
                             Sample.alice Sample.state eq_refl) as [Hfresh Hstale].
  split.
  - destruct (Hfresh 1000 1001 eq_refl) as (p & _ & Ht & Hl).
    exists p. split; [exact Ht | exact Hl].
  - destruct (Hstale 1000 1001 eq_refl) as (_ & p & _ & Ht & H1 & H2 & _).
    exists p. split; [exact Ht|]. split.
    + apply H1. unfold TTLCache.ttl. lia.
    + apply H2. unfold TTLCache.ttl. lia.
Defined.

(** An entry that expires between the membership test and the read makes
    [get_posts] end in [KeyError]: here the entry written at reading 1001
    expires at 1301. *)
Lemma get_posts_expiry_race :
  let listed := get_posts 1000 1001 Sample.alice_token Sample.state in
  snd (get_posts 1300 1301 Sample.alice_token (fst listed))
  = Err (KeyError Sample.alice_token).
Proof. reflexivity. Qed.

(** ** The creation timestamp *)

(** Every post that [add_post] stores carries the one value computed when
    the class body of [Post] ran. *)
Lemma add_post_created_at created_at_default post token st st' postID :
  add_post created_at_default post token st = (st', Ok postID) ->
  exists p, posts (db st') = posts (db st) ++ [p] /\
            Post.id p = postID /\
            Post.created_at p = created_at_default.
Proof.
  unfold add_post. destruct (get_user_by_token _ _) as [user|]; [|discriminate].
  intros H. inversion H; subst; clear H. simpl.
  eexists. split; [reflexivity|]. split; reflexivity.
Qed.

(** C8. The stored [created_at] is not the time of the request.  In a
    process started at second 1700000000, two posts created 100 and 200
    seconds later are both stored with [created_at = 1700000000]: the
    column default [int(time.time())] is computed once, when the module is
    loaded, and [add_post] never reads the clock. *)
Theorem created_at_is_process_start
        (hash_password : string -> string -> string)
        (verify_password : string -> string -> bool) :
  let ev1 := mkEvent 1700000100 100 100
                     (AddPost Sample.hello Sample.alice_token) in
  let ev2 := mkEvent 1700000200 200 200
                     (AddPost (PostCreate.mk "again") Sample.alice_token) in
  let st2 := run Sample.started hash_password verify_password
                 Sample.state [ev1; ev2] in
  exists p1 p2,
    posts (db st2) = posts Sample.store ++ [p1; p2] /\
    Post.text p1 = "hello" /\ Post.text p2 = "again" /\
    Post.created_at p1 = 1700000000 /\ Post.created_at p1 <> time ev1 /\
    Post.created_at p2 = 1700000000 /\ Post.created_at p2 <> time ev2.
Proof.
  simpl.
  exists (Post.mk 4 "hello" 1 1700000000), (Post.mk 5 "again" 1 1700000000).
  repeat split; simpl; discriminate.
Qed.

(** * Further properties of the handlers *)

(** ** One request, one effect *)

Lemma find_app_found {A} (f : A -> bool) (l1 l2 : list A) (x : A) :
  find f l1 = Some x -> find f (l1 ++ l2) = Some x.
Proof.
  induction l1 as [|a l1 IH]; simpl; [discriminate|].
  destruct (f a); [trivial | exact IH].
Qed.

Lemma step_changes created_at_default hash_password verify_password st ev :
  changes st (fst (step created_at_default hash_password verify_password st ev)).
Proof.
  unfold step.
  destruct (request ev) as [user salt token_hex|user|post token|token|post_id token].
  - unfold signup.
    destruct (get_user_by_email _ _) eqn:E; [apply ch_none|].
    destruct (get_user_by_token _ _) eqn:T; [apply ch_none|].
    simpl. now apply ch_signup with (token_hex := token_hex).
  - unfold login. destruct (get_user_by_email _ _); [|apply ch_none].
    destruct (verify_password _ _); apply ch_none.
  - unfold add_post. destruct (get_user_by_token _ _) as [u|] eqn:T; [|apply ch_none].
    simpl. now apply ch_add_post with (token := token) (u := u).
  - unfold get_posts. destruct (get_user_by_token _ _) as [u|] eqn:T; [|apply ch_none].
    destruct (TTLCache.contains _ _ _) eqn:C.
    + destruct (TTLCacheFacts.getitem_after_contains
                  (monotonic ev) (monotonic' ev) _ _ C) as (l & F & _ & G).
      rewrite G. simpl.
      destruct (_ <? _); simpl; now apply ch_cache_read with (u := u) (l := l).
    + simpl. now apply ch_cache_write.
  - unfold delete_post. destruct (get_user_by_token _ _) as [u|] eqn:T; [|apply ch_none].
    destruct (find_owned_post _ _ _) as [p|] eqn:F; [|apply ch_none].
    apply find_owned_post_some in F. destruct F as (Hin & _ & Hown).
    simpl. now apply ch_delete_post with (token := token) (u := u).
Qed.

(** ** The invariants, effect by effect *)

Lemma in_user_tokens (d : DB) (t : string) :
  In t (user_tokens d) <-> exists u, In u (users d) /\ User.token u = Some t.
Proof.
  unfold user_tokens. rewrite in_flat_map. split.
  - intros [u [Hu Ht]]. exists u. split; [assumption|].
    destruct (User.token u); simpl in Ht; [|contradiction].
    destruct Ht as [->|[]]. reflexivity.
  - intros [u [Hu Ht]]. exists u. split; [assumption|].
    rewrite Ht. now left.
Qed.

Lemma changes_accounts_ok st st' :
  changes st st' -> accounts_ok (db st) -> accounts_ok (db st').
Proof.
  intros [ | u token_hex He Ht Htok Hid | | | | ]; try (intros Hsame; exact Hsame).
  intros (Hids & Hemails & Htokens & Hlt).
  unfold accounts_ok, user_tokens. simpl.
  rewrite !map_app, flat_map_app. simpl. rewrite Htok. simpl.
  repeat split.
  - apply NoDup_snoc; [assumption|].
    intros Hin. apply in_map_iff in Hin. destruct Hin as [v [E Hv]].
    specialize (Hlt v Hv). lia.
  - apply NoDup_snoc; [assumption|].
    intros Hin. apply in_map_iff in Hin. destruct Hin as [v [E Hv]].
    pose proof (find_none _ _ He v Hv) as Hne. unfold email_is in Hne.
    rewrite E in Hne. now rewrite String.eqb_refl in Hne.
  - apply NoDup_snoc; [assumption|].
    intros Hin. apply in_user_tokens in Hin. destruct Hin as [v [Hv Tv]].
    apply never_issued_lookup in Ht. exact (Ht v Hv Tv).
  - intros v Hv. apply in_app_iff in Hv. destruct Hv as [Hv|[<-|[]]].
    + specialize (Hlt v Hv). lia.
    + lia.
Qed.

Lemma changes_posts_seq_ok st st' :
  changes st st' -> posts_seq_ok (db st) -> posts_seq_ok (db st').
Proof.
  intros [ | | token u p Ht Hid Hown | token u p Ht Hin Hown | | ];
    try (intros Hsame; exact Hsame); intros [Hpk Hlt]; unfold posts_seq_ok, posts_pk; simpl.
  - split.
    + rewrite map_app. simpl. apply NoDup_snoc; [exact Hpk|].
      intros Hi. apply in_map_iff in Hi. destruct Hi as [q [E Hq]].
      specialize (Hlt q Hq). lia.
    + intros q Hq. apply in_app_iff in Hq. destruct Hq as [Hq|[<-|[]]].
      * specialize (Hlt q Hq). lia.
      * lia.
  - split.
    + now apply NoDup_map_filter.
    + intros q Hq. apply filter_In in Hq. now apply Hlt.
Qed.

Lemma changes_posts_fk st st' :
  changes st st' -> posts_fk (db st) -> posts_fk (db st').
Proof.
  intros [ | u token_hex He Ht Htok Hid | token u p Ht Hid Hown
           | token u p Ht Hin Hown | | ];
    try (intros Hsame; exact Hsame); intros Hfk q Hq; simpl in *.
  - destruct (Hfk q Hq) as [v [Hv E]]. exists v. split; [|exact E].
    apply in_app_iff. now left.
  - apply in_app_iff in Hq. destruct Hq as [Hq|[<-|[]]]; [now apply Hfk|].
    exists u. split; [|now symmetry].
    now apply get_user_by_token_some in Ht.
  - apply filter_In in Hq. now apply Hfk.
Qed.

Lemma in_move_to_end (k : string) (c : TTLCache.t) (l : TTLCache.Link) :
  In l (TTLCache.move_to_end k c) -> In l c.
Proof.
  unfold TTLCache.move_to_end.
  destruct (find (TTLCache.has_key k) c) as [l0|] eqn:F; [|trivial].
  intros H. apply in_app_iff in H. destruct H as [H|[<-|[]]].
  - unfold TTLCache.remove in H. now apply filter_In in H.
  - now apply find_some in F.
Qed.

Lemma in_setitem now (c : TTLCache.t) k v (l : TTLCache.Link) :
  In l (TTLCache.setitem now c k v) ->
  In l c \/ l = TTLCache.mkLink k v (now + TTLCache.ttl).
Proof.
  unfold TTLCache.setitem.
  destruct (find (TTLCache.has_key k) (TTLCache.expire now c));
    intros H; apply in_app_iff in H; destruct H as [H|[<-|[]]]; auto; left.
  - unfold TTLCache.remove, TTLCache.expire in H.
    apply filter_In in H. destruct H as [H _]. now apply filter_In in H.
  - unfold TTLCache.make_room, TTLCache.expire in H.
    apply In_skipn in H. now apply filter_In in H.
Qed.

Lemma changes_cache_owned st st' :
  changes st st' -> cache_owned st -> cache_owned st'.
Proof.
  intros [ | u token_hex He Ht Htok Hid | token u p Ht Hid Hown
           | token u p Ht Hin Hown | token u l0 Ht F | now token u Ht ];
    try (intros Hsame; exact Hsame); intros Hc l Hl; simpl in *.
  - destruct (Hc l Hl) as [v [Hv Hp]]. exists v. split; [|exact Hp].
    unfold get_user_by_token. simpl. now apply find_app_found.
  - apply in_move_to_end in Hl. now apply Hc.
  - apply in_setitem in Hl. destruct Hl as [Hl| ->]; [now apply Hc|].
    exists u. split; [exact Ht|]. simpl.
    intros q Hq. unfold posts_of in Hq. apply filter_In in Hq.
    destruct Hq as [_ Hq]. now apply Z.eqb_eq in Hq.
Qed.

Lemma changes_cache_ok st st' :
  changes st st' -> TTLCache.ok (cache st) -> TTLCache.ok (cache st').
Proof.
  intros [ | | | | token u l0 Ht F | now token u Ht ];
    try (intros Hsame; exact Hsame); intros H; simpl.
  - destruct H as [Hd Hs]. split; [now apply TTLCacheFacts.move_to_end_keys|].
    pose proof (TTLCacheFacts.move_to_end_size token (cache st)). lia.
  - now apply TTLCacheFacts.setitem_ok.
Qed.

Lemma changes_state_ok st st' : changes st st' -> state_ok st -> state_ok st'.
Proof.
  intros Hch (Ha & Hs & Hf & Hc & Hk). repeat split.
  - exact (proj1 (changes_accounts_ok _ _ Hch Ha)).
  - exact (proj1 (proj2 (changes_accounts_ok _ _ Hch Ha))).
  - exact (proj1 (proj2 (proj2 (changes_accounts_ok _ _ Hch Ha)))).
  - exact (proj2 (proj2 (proj2 (changes_accounts_ok _ _ Hch Ha)))).
  - exact (proj1 (changes_posts_seq_ok _ _ Hch Hs)).
  - exact (proj2 (changes_posts_seq_ok _ _ Hch Hs)).
  - exact (changes_posts_fk _ _ Hch Hf).
  - exact (changes_cache_owned _ _ Hch Hc).
  - exact (proj1 (changes_cache_ok _ _ Hch Hk)).
  - exact (proj2 (changes_cache_ok _ _ Hch Hk)).
Qed.

Lemma run_invariant created_at_default hash_password verify_password
      (P : State -> Prop) :
  (forall st st', changes st st' -> P st -> P st') ->
  forall evs st,
    P st -> P (run created_at_default hash_password verify_password st evs).
Proof.
  intros Hstep evs. induction evs as [|ev evs IH]; intros st H; [exact H|].
  simpl. apply IH. eapply Hstep; [apply step_changes | exact H].
Qed.

Lemma sample_state_ok : state_ok Sample.state.
Proof.
  unfold state_ok, accounts_ok, posts_seq_ok, posts_pk, posts_fk, cache_owned.
  simpl. repeat split.
  - repeat (constructor; [simpl; intuition discriminate|]). constructor.
  - repeat (constructor; [simpl; intuition discriminate|]). constructor.
  - repeat (constructor; [simpl; intuition discriminate|]). constructor.
  - intros u [<-|[<-|[]]]; simpl; lia.
  - repeat (constructor; [simpl; intuition discriminate|]). constructor.
  - intros p [<-|[<-|[<-|[]]]]; simpl; lia.
  - intros p [<-|[<-|[<-|[]]]]; simpl;
      [exists Sample.alice | exists Sample.bob | exists Sample.alice]; auto.
  - intros l [].
  - constructor.
  - unfold TTLCache.currsize, TTLCache.maxsize. simpl. lia.
Defined.

(** ** The constraints of the schema and of the cache are invariants *)

Lemma run_state_ok created_at_default hash_password verify_password st evs :
  state_ok st ->
  state_ok (run created_at_default hash_password verify_password st evs).
Proof. apply run_invariant. exact changes_state_ok. Qed.

Lemma trace_final_ok : state_ok Trace.final.
Proof. apply run_state_ok. exact sample_state_ok. Defined.

(** X1. Every request, served at any clock readings, keeps the constraints of
    the two tables (unique ids, unique emails, unique tokens, every post
    owned by a stored account, ids below the counters) and keeps every
    cache entry under a token that resolves, holding posts of that token's
    account only, with at most [maxsize] entries. *)
Theorem requests_keep_state_ok
        (created_at_default : Z)
        (hash_password : string -> string -> string)
        (verify_password : string -> string -> bool)
        (st : State) (evs : list Event) :
  state_ok st ->
  state_ok (run created_at_default hash_password verify_password st evs).
Proof. apply run_state_ok. Qed.

Lemma requests_keep_state_ok_witness : state_ok Trace.final.
Proof.
  apply (requests_keep_state_ok
           Sample.started Sample.hash_password Sample.verify_password
           Sample.state Trace.events).
  exact sample_state_ok.
Defined.

(** ** Reads never leak *)

Lemma get_posts_owned now now' token st st' listed :
  cache_owned st ->
  get_posts now now' token st = (st', Ok listed) ->
  exists u, get_user_by_token (db st) token = Some u /\
            forall p, In p listed -> Post.user_id p = User.id u.
Proof.
  intros Hc. unfold get_posts.
  destruct (get_user_by_token (db st) token) as [u|] eqn:T; [|discriminate].
  destruct (TTLCache.contains now (cache st) token) eqn:C.
  - destruct (TTLCacheFacts.getitem_after_contains now now' _ _ C)
      as (l & F & _ & G).
    rewrite G. destruct (now' <? TTLCache.expires l); [|discriminate].
    intros H. inversion H; subst; clear H.
    apply find_some in F. destruct F as [Hin Hk].
    apply TTLCacheFacts.has_key_true in Hk.
    destruct (Hc l Hin) as [v [Hv Hp]]. rewrite Hk, T in Hv.
    inversion Hv; subst v. exists u. auto.
  - intros H. inversion H; subst; clear H. exists u. split; [reflexivity|].
    intros p Hp. unfold posts_of in Hp. apply filter_In in Hp.
    destruct Hp as [_ Hp]. now apply Z.eqb_eq in Hp.
Qed.

(** X2. Whatever requests a process has served since it started with an empty
    cache, a list that succeeds returns only posts whose [user_id] is the
    id of the account the presented token resolves to, whether the answer
    comes from the store or from the cache. *)
Theorem get_posts_returns_own_posts_only
        (created_at_default : Z)
        (hash_password : string -> string -> string)
        (verify_password : string -> string -> bool)
        (d : DB) (evs : list Event) (now now' : Z) (token : string)
        (st' : State) (listed : list Post.t) :
  let st := run created_at_default hash_password verify_password
                (mkState d TTLCache.empty) evs in
  get_posts now now' token st = (st', Ok listed) ->
  exists u, get_user_by_token (db st) token = Some u /\
            forall p, In p listed -> Post.user_id p = User.id u.
Proof.
  intros st. apply get_posts_owned.
  unfold st. apply run_invariant with (P := cache_owned).
  - exact changes_cache_owned.
  - intros l [].
Qed.

Lemma get_posts_returns_own_posts_only_witness :
  exists u, get_user_by_token (db Trace.final) Sample.alice_token = Some u /\
            forall p, In p [Sample.alice_post; Sample.alice_post'] ->
                      Post.user_id p = User.id u.
Proof.
  apply (get_posts_returns_own_posts_only
           Sample.started Sample.hash_password Sample.verify_password
           Sample.store Trace.events 90 91 Sample.alice_token
           (fst (get_posts 90 91 Sample.alice_token Trace.final))).
  reflexivity.
Defined.

(** ** Accounts are append-only *)

Lemma changes_users st st' :
  changes st st' -> exists new, users (db st') = users (db st) ++ new.
Proof.
  intros [ | u token_hex _ _ _ _ | | | | ]; simpl;
    try (exists []; now rewrite app_nil_r).
  now exists [u].
Qed.

Lemma run_users created_at_default hash_password verify_password evs st :
  exists new,
    users (db (run created_at_default hash_password verify_password st evs))
    = users (db st) ++ new.
Proof.
  revert st. induction evs as [|ev evs IH]; intros st.
  - exists []. simpl. now rewrite app_nil_r.
  - simpl. destruct (IH (fst (step created_at_default hash_password
                                   verify_password st ev))) as [new2 E2].
    destruct (changes_users _ _ (step_changes created_at_default hash_password
                                              verify_password st ev))
      as [new1 E1].
    exists (new1 ++ new2). rewrite E2, E1. now rewrite app_assoc.
Qed.

(** X3. No sequence of requests removes or rewrites an account: the accounts
    present before are still there, unchanged and in the same order, with
    the new ones after them. *)
Theorem accounts_are_append_only
        (created_at_default : Z)
        (hash_password : string -> string -> string)
        (verify_password : string -> string -> bool)
        (st : State) (evs : list Event) :
  exists new,
    users (db (run created_at_default hash_password verify_password st evs))
    = users (db st) ++ new.
Proof. apply run_users. Qed.

(** X4. A login that succeeds keeps succeeding, with the same token, after any
    further requests; and a token that resolves keeps resolving to the
    same account.  Nothing rotates, revokes or reassigns a token. *)
Theorem credentials_persist
        (created_at_default : Z)
        (hash_password : string -> string -> string)
        (verify_password : string -> string -> bool)
        (st : State) (evs : list Event) :
  let st' := run created_at_default hash_password verify_password st evs in
  (forall user r,
      snd (login verify_password user st) = Ok r ->
      snd (login verify_password user st') = Ok r) /\
  (forall token u,
      get_user_by_token (db st) token = Some u ->
      get_user_by_token (db st') token = Some u).
Proof.
  intros st'.
  destruct (run_users created_at_default hash_password verify_password evs st)
    as [new E].
  fold st' in E. split.
  - intros user r. unfold login, get_user_by_email. rewrite E.
    destruct (find (email_is (UserLogin.email user)) (users (db st)))
      as [u|] eqn:F; [|discriminate].
    rewrite (find_app_found _ _ new _ F).
    destruct (verify_password _ _); [trivial | discriminate].
  - intros token u. unfold get_user_by_token. rewrite E.
    apply find_app_found.
Qed.

Lemma credentials_persist_witness :
  snd (login Sample.verify_password
             (UserLogin.mk "bob@example.com" "builder1") Trace.final)
  = Ok (Some Sample.bob_token) /\
  get_user_by_token (db Trace.final) Sample.alice_token = Some Sample.alice.
Proof.
  destruct (credentials_persist
              Sample.started Sample.hash_password Sample.verify_password
              Sample.state Trace.events) as [Hlogin Htoken].
  split.
  - apply Hlogin. reflexivity.
  - apply Htoken. reflexivity.
Defined.

(** ** Creating and deleting *)

Lemma filter_id_in {A} (f : A -> bool) (l : list A) :
  (forall x, In x l -> f x = true) -> filter f l = l.
Proof.
  intros H. apply filter_all. apply forallb_forall. exact H.
Qed.

Lemma filter_absorb {A} (f g : A -> bool) (l : list A) :
  (forall x, In x l -> f x = true -> g x = true) ->
  filter f (filter g l) = filter f l.
Proof.
  induction l as [|a l IH]; simpl; intros H; [reflexivity|].
  assert (filter f (filter g l) = filter f l) as E
      by (apply IH; intros x Hx; apply H; now right).
  destruct (g a) eqn:Ga; simpl.
  - now rewrite E.
  - destruct (f a) eqn:Fa; [|exact E].
    rewrite (H a (or_introl eq_refl) Fa) in Ga. discriminate.
Qed.

(** X5. A post that was just created can be deleted with the same token and
    the id that [add_post] returned, and the [posts] table is then the one
    from before the create: same rows, same order.  Accounts and cache are
    untouched. *)
Theorem add_post_then_delete_post
        (created_at_default : Z) (post : PostCreate.t) (token : string)
        (st st1 : State) (postID : Z) :
  posts_seq_ok (db st) ->
  add_post created_at_default post token st = (st1, Ok postID) ->
  exists st2,
    delete_post postID token st1 = (st2, Ok "Post deleted") /\
    posts (db st2) = posts (db st) /\
    users (db st2) = users (db st) /\
    cache st2 = cache st.
Proof.
  intros [_ Hlt]. unfold add_post.
  destruct (get_user_by_token (db st) token) as [u|] eqn:T; [|discriminate].
  intros H. inversion H; subst; clear H.
  set (p := Post.mk (next_post_id (db st)) (PostCreate.text post) (User.id u)
                    created_at_default).
  assert (forall q, In q (posts (db st)) ->
                    (Post.id q =? next_post_id (db st)) = false) as Hold.
  { intros q Hq. apply Z.eqb_neq. specialize (Hlt q Hq). lia. }
  unfold delete_post.
  assert (get_user_by_token (db (with_db st (insert_post (db st) p))) token
          = Some u) as T' by exact T.
  rewrite T'.
  assert (find_owned_post (db (with_db st (insert_post (db st) p)))
                          (next_post_id (db st)) (User.id u) = Some p) as F.
  { unfold find_owned_post. simpl. rewrite find_app_none.
    - simpl. unfold owned_by. simpl. now rewrite !Z.eqb_refl.
    - apply find_none_iff. intros q Hq. now rewrite (Hold q Hq). }
  rewrite F. eexists. split; [reflexivity|]. simpl.
  repeat split. rewrite filter_app. simpl. rewrite Z.eqb_refl. simpl.
  rewrite app_nil_r. apply filter_id_in.
  intros q Hq. now rewrite (Hold q Hq).
Qed.

Lemma add_post_then_delete_post_witness :
  exists st2,
    delete_post 4 Sample.alice_token
                (fst (add_post Sample.started Sample.hello Sample.alice_token
                               Sample.state))
    = (st2, Ok "Post deleted") /\
    posts (db st2) = posts Sample.store /\
    users (db st2) = users Sample.store /\
    cache st2 = cache Sample.state.
Proof.
  apply (add_post_then_delete_post
           Sample.started Sample.hello Sample.alice_token Sample.state).
  - exact (proj1 (proj2 sample_state_ok)).
  - reflexivity.
Defined.

(** X6. Deleting is not repeatable: once a delete has succeeded, a second
    delete of the same id with the same token answers [NotFoundError] and
    changes nothing. *)
Theorem delete_post_twice
        (post_id : Z) (token detail : string) (st st1 : State) :
  delete_post post_id token st = (st1, Ok detail) ->
  delete_post post_id token st1 = (st1, Err NotFoundError).
Proof.
  unfold delete_post.
  destruct (get_user_by_token (db st) token) as [u|] eqn:T; [|discriminate].
  destruct (find_owned_post (db st) post_id (User.id u)) as [p|] eqn:F;
    [|discriminate].
  intros H. inversion H; subst; clear H.
  assert (get_user_by_token (db (with_db st (delete_row (db st) p))) token
          = Some u) as T' by exact T.
  rewrite T'. simpl.
  apply find_owned_post_some in F. destruct F as (_ & Hid & _).
  assert (find_owned_post (delete_row (db st) p) post_id (User.id u) = None)
    as Hgone.
  { apply find_owned_post_none. simpl. intros q Hq Hq'.
    apply filter_In in Hq. destruct Hq as [_ Hq].
    apply negb_true_iff, Z.eqb_neq in Hq. congruence. }
  now rewrite Hgone.
Qed.

Lemma delete_post_twice_witness :
  let st1 := fst (delete_post 3 Sample.alice_token Sample.state) in
  delete_post 3 Sample.alice_token st1 = (st1, Err NotFoundError).
Proof.
  apply (delete_post_twice 3 Sample.alice_token "Post deleted" Sample.state).
  reflexivity.
Defined.

(** X7. A write changes the posts of the writing account only: for every other
    account the sequence of its posts in the store is the same before and
    after a create or a delete, successful or not. *)
Theorem writes_touch_own_posts_only
        (created_at_default : Z) (post : PostCreate.t) (post_id : Z)
        (token : string) (st : State) (u : User.t) (other : Z) :
  posts_pk (db st) ->
  get_user_by_token (db st) token = Some u ->
  other <> User.id u ->
  posts_of (db (fst (add_post created_at_default post token st))) other
  = posts_of (db st) other /\
  posts_of (db (fst (delete_post post_id token st))) other
  = posts_of (db st) other.
Proof.
  intros Hpk T Hne. unfold add_post, delete_post. rewrite T. split.
  - unfold posts_of. simpl. rewrite filter_app. simpl.
    unfold owned_by at 2. simpl.
    assert ((User.id u =? other) = false) as -> by (apply Z.eqb_neq; congruence).
    apply app_nil_r.
  - destruct (find_owned_post (db st) post_id (User.id u)) as [p|] eqn:F;
      [|reflexivity].
    apply find_owned_post_some in F. destruct F as (Hin & _ & Hown).
    unfold posts_of. simpl. apply filter_absorb.
    intros q Hq Hq'. apply negb_true_iff, Z.eqb_neq. intros E.
    assert (q = p) by (eapply NoDup_map_inj_in; eauto). subst q.
    unfold owned_by in Hq'. apply Z.eqb_eq in Hq'. congruence.
Qed.

Lemma writes_touch_own_posts_only_witness :
  posts_of (db (fst (add_post Sample.started Sample.hello Sample.alice_token
                              Sample.state))) 2
  = [Sample.bob_post] /\
  posts_of (db (fst (delete_post 1 Sample.alice_token Sample.state))) 2
  = [Sample.bob_post].
Proof.
  apply (writes_touch_own_posts_only
           Sample.started Sample.hello 1 Sample.alice_token Sample.state
           Sample.alice 2).
  - exact (proj1 (proj1 (proj2 sample_state_ok))).
  - reflexivity.
  - simpl. lia.
Defined.

(** ** Listing after a delete *)

Lemma filter_swap {A} (f g : A -> bool) (l : list A) :
  filter f (filter g l) = filter g (filter f l).
Proof.
  induction l as [|a l IH]; simpl; [reflexivity|].
  destruct (f a) eqn:Fa, (g a) eqn:Ga; simpl; rewrite ?Fa, ?Ga, IH; reflexivity.
Qed.

(** X8. A delete is as invisible to a cached listing as a create.  After a list
    has populated the cache (entry written at reading [t0']) and one of the
    listed posts was deleted, a list served at readings below [t0' + ttl]
    still returns the sequence from before the delete, deleted post
    included; a list served from [t0' + ttl] on returns the same sequence
    without the posts of the deleted id. *)
Theorem delete_then_list
        (token : string) (user : User.t) (post_id : Z) (p : Post.t)
        (st : State) (t0 t0' : Z) :
  get_user_by_token (db st) token = Some user ->
  find_owned_post (db st) post_id (User.id user) = Some p ->
  TTLCache.contains t0 (cache st) token = false ->
  let before := posts_of (db st) (User.id user) in
  let listed := get_posts t0 t0' token st in
  let deleted := delete_post post_id token (fst listed) in
  snd listed = Ok before /\ In p before /\
  snd deleted = Ok "Post deleted" /\
  (forall t1 t1',
      t1 <= t1' < t0' + TTLCache.ttl ->
      snd (get_posts t1 t1' token (fst deleted)) = Ok before) /\
  (forall t2 t2',
      t0' + TTLCache.ttl <= t2 ->
      snd (get_posts t2 t2' token (fst deleted))
      = Ok (filter (fun q => negb (Post.id q =? post_id)) before)).
Proof.
  intros Hu F Hc before listed deleted.
  unfold deleted, listed. rewrite (get_posts_miss t0 t0' token st user Hu Hc).
  simpl. fold before.
  set (c := TTLCache.setitem t0' (cache st) token before).
  pose proof (find_owned_post_some _ _ _ _ F) as (Hin & Hid & Hown).
  assert (delete_post post_id token (with_cache st c)
          = (with_db (with_cache st c) (delete_row (db st) p), Ok "Post deleted"))
    as Hdel.
  { unfold delete_post. simpl. now rewrite Hu, F. }
  rewrite Hdel. simpl.
  set (s := with_db (with_cache st c) (delete_row (db st) p)).
  assert (get_user_by_token (db s) token = Some user) as Hs by exact Hu.
  assert (find (TTLCache.has_key token) (cache s)
          = Some (TTLCache.mkLink token before (t0' + TTLCache.ttl))) as Hc'
      by apply TTLCacheFacts.find_setitem.
  repeat split.
  - unfold before, posts_of. apply filter_In. split; [exact Hin|].
    unfold owned_by. now apply Z.eqb_eq.
  - intros t1 t1' Ht1.
    rewrite (get_posts_hit t1 t1' token s user _ Hs Hc'); simpl; [reflexivity | lia | lia].
  - intros t2 t2' Ht2. rewrite (get_posts_miss t2 t2' token s user Hs).
    + simpl. f_equal. unfold before, posts_of. simpl. rewrite Hid.
      apply filter_swap.
    + unfold TTLCache.contains. rewrite Hc'. simpl. now apply Z.ltb_ge.
Qed.

Lemma delete_then_list_witness :
  let deleted :=
    delete_post 3 Sample.alice_token
                (fst (get_posts 1000 1001 Sample.alice_token Sample.state)) in
  snd (get_posts 1299 1300 Sample.alice_token (fst deleted))
  = Ok [Sample.alice_post; Sample.alice_post'] /\
  snd (get_posts 1301 1302 Sample.alice_token (fst deleted))
  = Ok [Sample.alice_post].
Proof.
  destruct (delete_then_list Sample.alice_token Sample.alice 3
                             Sample.alice_post' Sample.state 1000 1001
                             eq_refl eq_refl eq_refl)
    as (_ & _ & _ & Hstale & Hfresh).
  split.
  - apply Hstale. unfold TTLCache.ttl. lia.
  - apply Hfresh. unfold TTLCache.ttl. lia.
Defined.

(** ** The one failure of a list behind the token gate *)

(** X9. A list with a valid token fails in exactly one situation: the cache
    holds an entry for the token that is live at the reading of the
    membership test and expired at the reading of the read that follows.
    The request then ends in [KeyError]. *)
Theorem get_posts_fails_only_on_expiry_race
        (now now' : Z) (token : string) (st : State) (u : User.t) :
  get_user_by_token (db st) token = Some u ->
  ((exists e, snd (get_posts now now' token st) = Err e) <->
   (exists l, find (TTLCache.has_key token) (cache st) = Some l /\
              now < TTLCache.expires l <= now')) /\
  (forall e, snd (get_posts now now' token st) = Err e -> e = KeyError token).
Proof.
  intros T. unfold get_posts. rewrite T.
  destruct (TTLCache.contains now (cache st) token) eqn:C.
  - destruct (TTLCacheFacts.getitem_after_contains now now' _ _ C)
      as (l & F & Hlive & G).
    rewrite G. simpl.
    destruct (now' <? TTLCache.expires l) eqn:L; simpl.
    + apply Z.ltb_lt in L. split; [split|].
      * intros [e He]. discriminate.
      * intros (l' & F' & H). rewrite F in F'. inversion F'; subst l'. lia.
      * intros e He. discriminate.
    + apply Z.ltb_ge in L. split; [split|].
      * intros _. exists l. split; [exact F | lia].
      * intros _. now exists (KeyError token).
      * intros e He. now inversion He.
  - simpl. split; [split|].
    + intros [e He]. discriminate.
    + intros (l & F & H). unfold TTLCache.contains in C. rewrite F in C.
      unfold TTLCache.live in C. apply Z.ltb_ge in C. lia.
    + intros e He. discriminate.
Qed.

Lemma get_posts_fails_only_on_expiry_race_witness :
  let st := fst (get_posts 1000 1001 Sample.alice_token Sample.state) in
  exists e, snd (get_posts 1300 1301 Sample.alice_token st) = Err e.
Proof.
  intros st.
  apply (proj2 (proj1 (get_posts_fails_only_on_expiry_race
                         1300 1301 Sample.alice_token st Sample.alice eq_refl))).
  exists (TTLCache.mkLink Sample.alice_token
                          [Sample.alice_post; Sample.alice_post'] 1301).
  split; [reflexivity | simpl; lia].
Defined.

(** ** A new account *)

(** X10. The token returned by a successful signup works at once: it resolves
    to the new account, which carries the submitted email and the next id
    of the counter, and a list with it returns the empty sequence. *)
Theorem new_account_lists_nothing
        (hash_password : string -> string -> string)
        (user : UserCreate.t) (salt token_hex token : string)
        (st st1 : State) (now now' : Z) :
  state_ok st ->
  signup hash_password user salt token_hex st = (st1, Ok token) ->
  token = token_hex /\
  exists u,
    get_user_by_token (db st1) token = Some u /\
    User.email u = UserCreate.email user /\
    User.id u = next_user_id (db st) /\
    snd (get_posts now now' token st1) = Ok [].
Proof.
  intros (Ha & _ & Hfk & Hc & _). unfold signup.
  destruct (get_user_by_email (db st) (UserCreate.email user)); [discriminate|].
  destruct (get_user_by_token (db st) token_hex) eqn:T; [discriminate|].
  intros H. inversion H; subst; clear H. split; [reflexivity|].
  set (u := User.mk (next_user_id (db st)) (UserCreate.email user)
                    (hash_password salt (UserCreate.password user))
                    (Some token)).
  assert (get_user_by_token (db (with_db st (insert_user (db st) u))) token
          = Some u) as Hu.
  { unfold get_user_by_token. simpl. rewrite find_app_none by exact T.
    simpl. unfold token_is. simpl. now rewrite String.eqb_refl. }
  exists u. repeat split; [exact Hu|].
  rewrite (get_posts_miss now now' token _ u Hu).
  - simpl. f_equal. unfold posts_of. simpl.
    destruct (filter (owned_by (next_user_id (db st))) (posts (db st)))
      as [|q rest] eqn:E; [reflexivity|].
    assert (In q (filter (owned_by (next_user_id (db st))) (posts (db st))))
      as Hq by (rewrite E; now left).
    apply filter_In in Hq. destruct Hq as [Hq Hown].
    unfold owned_by in Hown. apply Z.eqb_eq in Hown.
    destruct (Hfk q Hq) as (v & Hv & Ev).
    destruct Ha as (_ & _ & _ & Hlt). specialize (Hlt v Hv). lia.
  - simpl. unfold TTLCache.contains.
    destruct (find (TTLCache.has_key token) (cache st)) as [l|] eqn:F;
      [|reflexivity].
    apply find_some in F. destruct F as [Hl Hk].
    apply TTLCacheFacts.has_key_true in Hk.
    destruct (Hc l Hl) as (v & Hv & _). rewrite Hk in Hv. congruence.
Qed.

Lemma new_account_lists_nothing_witness :
  let st1 := fst (signup Sample.hash_password Trace.carol "salt-c"
                         Sample.fresh_token Sample.state) in
  Sample.fresh_token = Sample.fresh_token /\
  exists u,
    get_user_by_token (db st1) Sample.fresh_token = Some u /\
    User.email u = "carol@example.com" /\
    User.id u = 3 /\
    snd (get_posts 10 11 Sample.fresh_token st1) = Ok [].
Proof.
  apply (new_account_lists_nothing
           Sample.hash_password Trace.carol "salt-c" Sample.fresh_token
           Sample.fresh_token Sample.state).
  - exact sample_state_ok.
  - reflexivity.
Defined.

(** ** Lookups find the one holder *)

Lemma find_token_holder (l : list User.t) (u : User.t) (t : string) :
  NoDup (flat_map (fun u => match User.token u with
                            | Some t => [t] | None => [] end) l) ->
  In u l -> User.token u = Some t -> find (token_is t) l = Some u.
Proof.
  induction l as [|a l IH]; simpl; intros Hd Hin Ht; [contradiction|].
  unfold token_is at 1.
  destruct (User.token a) as [ta|] eqn:Ta; simpl in Hd.
  - inversion Hd as [|? ? Hn Hd']; subst.
    destruct (String.eqb ta t) eqn:E.
    + apply String.eqb_eq in E. subst ta.
      destruct Hin as [->|Hin]; [reflexivity|].
      elim Hn. apply in_flat_map. exists u. split; [exact Hin|].
      rewrite Ht. now left.
    + destruct Hin as [->|Hin]; [|now apply IH].
      rewrite Ht in Ta. inversion Ta; subst.
      now rewrite String.eqb_refl in E.
  - destruct Hin as [->|Hin]; [congruence | now apply IH].
Qed.

Lemma find_email_holder (l : list User.t) (u : User.t) :
  NoDup (map User.email l) -> In u l ->
  find (email_is (User.email u)) l = Some u.
Proof.
  induction l as [|a l IH]; simpl; intros Hd Hin; [contradiction|].
  inversion Hd as [|? ? Hn Hd']; subst. unfold email_is at 1.
  destruct (String.eqb (User.email a) (User.email u)) eqn:E.
  - apply String.eqb_eq in E. destruct Hin as [->|Hin]; [reflexivity|].
    elim Hn. rewrite E. now apply in_map.
  - destruct Hin as [->|Hin]; [|now apply IH].
    now rewrite String.eqb_refl in E.
Qed.

(** X11. Under the unique indexes of [users], every stored account is the one
    its own token and its own email resolve to: no account is shadowed by
    another, so each can pass the token gate and log in as itself. *)
Theorem every_account_is_found
        (d : DB) (u : User.t) :
  accounts_ok d ->
  In u (users d) ->
  get_user_by_email d (User.email u) = Some u /\
  (forall t, User.token u = Some t -> get_user_by_token d t = Some u).
Proof.
  intros (_ & Hemails & Htokens & _) Hin. split.
  - now apply find_email_holder.
  - intros t Ht. now apply find_token_holder.
Qed.

Lemma every_account_is_found_witness :
  get_user_by_email (db Trace.final) "bob@example.com" = Some Sample.bob /\
  (forall t, User.token Sample.bob = Some t ->
             get_user_by_token (db Trace.final) t = Some Sample.bob).
Proof.
  apply (every_account_is_found (db Trace.final) Sample.bob).
  - exact (proj1 trace_final_ok).
  - vm_compute. tauto.
Defined.

(** X12. The token that a successful login returns passes the token gate, and
    the account it resolves to is the one that logged in. *)
Theorem login_token_resolves
        (verify_password : string -> string -> bool)
        (user : UserLogin.t) (st st' : State) (token : string) :
  accounts_ok (db st) ->
  login verify_password user st = (st', Ok (Some token)) ->
  exists u,
    get_user_by_token (db st) token = Some u /\
    User.email u = UserLogin.email user /\
    get_user_by_email (db st) (UserLogin.email user) = Some u.
Proof.
  intros (_ & _ & Htokens & _). unfold login.
  destruct (get_user_by_email (db st) (UserLogin.email user)) as [u|] eqn:E;
    [|discriminate].
  destruct (verify_password _ _); [|discriminate].
  intros H. assert (User.token u = Some token) as Ht by congruence.
  apply get_user_by_email_some in E. destruct E as [Hin He].
  exists u. split; [now apply find_token_holder|].
  split; [exact He|reflexivity].
Qed.

Lemma login_token_resolves_witness :
  exists u,
    get_user_by_token Sample.store Sample.alice_token = Some u /\
    User.email u = "alice@example.com" /\
    get_user_by_email Sample.store "alice@example.com" = Some u.
Proof.
  apply (login_token_resolves
           Sample.verify_password
           (UserLogin.mk "alice@example.com" "wonderland")
           Sample.state Sample.state Sample.alice_token).
  - exact (proj1 sample_state_ok).
  - reflexivity.
Defined.
